(** * Matcher: a shallow embedding of [src/matcher.py]

    The program loads a knowledge base of question/answer objects from a
    JSON file, caches a normalised form of every question and answers a
    query with the entry whose normalised question is most similar to the
    normalised query ([difflib.SequenceMatcher.ratio]).

    Conventions of the embedding.
    - A Python [str] is a [string]; its characters are read as the code
      points 0..255 (the Latin-1 range of Unicode), on which [str.lower],
      [str.strip] and the regular-expression class [\s] are tabulated
      below.  Strings with code points above 255 are outside the model.
    - A Python [float] score is represented by the exact rational whose
      rounding it is: [ratio] returns [2*M/T] in lowest terms, and the
      cutoff 0.55 is [11 # 20].  Correct rounding is monotone, and two
      different fractions with denominators below [2^26] round to
      different doubles, so [<] and [<=] on the rationals decide what
      [>] and [>=] decide on the floats for every string the program
      can realistically hold.
    - An exception is a value of [exn]; code that may raise returns a
      [result], and code that also assigns attributes of [self] runs in
      the state monad [M] that threads the [Matcher] object.
    - The file system is outside the program: [_load_kb] takes as its
      argument what [open] followed by [json.load] yields on
      [self.kb_path] at that moment, a parsed value or the exception.
      The attribute [kb_path] itself is therefore not kept. *)

From Stdlib Require Import QArith String Ascii Lia Sorted.
From stdpp Require Import base strings list gmap.

Local Open Scope nat_scope.

(* ================================================================== *)
(** * Python values, exceptions and the built-ins the program uses     *)
(* ================================================================== *)

Module Py.

(** The exceptions that the modelled code paths can raise. *)
Inductive exn : Type :=
  | OSError            (* open(): file missing or unreadable *)
  | JSONDecodeError    (* json.load(): text is not JSON *)
  | TypeError
  | AttributeError
  | KeyError
  | IndexError.

Inductive result (A : Type) : Type :=
  | Ok (a : A)
  | Raise (e : exn).
Arguments Ok {A} a.
Arguments Raise {A} e.

(** [result] is the error monad: [x ← r; k] runs [k] unless [r] raised.
    A list comprehension whose element expression may raise is [mapM]:
    the first exception aborts it. *)
#[global] Instance result_ret : MRet result := λ A a, Ok a.
#[global] Instance result_bind : MBind result := λ A B k r,
  match r with
  | Ok a => k a
  | Raise e => Raise e
  end.

(** What [json.load] can return. *)
#[warnings="-register-all"]
Inductive json : Type :=
  | JNull
  | JBool (b : bool)
  | JNum (x : Q)
  | JStr (s : string)
  | JArr (l : list json)
  | JObj (m : gmap string json).

(** Truth value of an object, as [or] tests it. *)
Definition truthy (v : json) : bool :=
  match v with
  | JNull => false
  | JBool b => b
  | JNum x => negb (Qeq_bool x 0)
  | JStr s => negb (String.eqb s "")
  | JArr l => negb (bool_decide (l = []))
  | JObj m => negb (bool_decide (m = ∅))
  end.

(** [x or y] *)
Definition or_ (x y : json) : json := if truthy x then x else y.

(** [iter(v)]: the items a [for] loop or comprehension walks through. *)
Definition iter (v : json) : result (list json) :=
  match v with
  | JArr l => Ok l
  | JObj m => Ok (JStr <$> (map_to_list m).*1)
  | JStr s => Ok ((λ c, JStr (String c EmptyString)) <$> list_ascii_of_string s)
  | JNull | JBool _ | JNum _ => Raise TypeError
  end.

(** [len(v)] *)
Definition len (v : json) : result nat :=
  match v with
  | JArr l => Ok (length l)
  | JObj m => Ok (size m)
  | JStr s => Ok (String.length s)
  | JNull | JBool _ | JNum _ => Raise TypeError
  end.

(** [l[i]] on a Python list, negative indices counting from the end. *)
Definition list_getitem {A} (l : list A) (i : Z) : result A :=
  let n := Z.of_nat (length l) in
  let i' := if (i <? 0)%Z then (i + n)%Z else i in
  if (i' <? 0)%Z then Raise IndexError
  else match l !! Z.to_nat i' with
       | Some x => Ok x
       | None => Raise IndexError
       end.

(** [v[i]] with an integer subscript. *)
Definition getitem_int (v : json) (i : Z) : result json :=
  match v with
  | JArr l => list_getitem l i
  | JStr s =>
      c ← list_getitem (list_ascii_of_string s) i;
      Ok (JStr (String c EmptyString))
  | JObj _ => Raise KeyError         (* keys of a JSON object are strings *)
  | JNull | JBool _ | JNum _ => Raise TypeError
  end.

(** [v[k]] with a string subscript. *)
Definition getitem_str (v : json) (k : string) : result json :=
  match v with
  | JObj m =>
      match m !! k with
      | Some x => Ok x
      | None => Raise KeyError
      end
  | JNull | JBool _ | JNum _ | JStr _ | JArr _ => Raise TypeError
  end.

(** [v.get(k, d)]: only a dict has the method. *)
Definition get (v : json) (k : string) (d : json) : result json :=
  match v with
  | JObj m => Ok (default d (m !! k))
  | JNull | JBool _ | JNum _ | JStr _ | JArr _ => Raise AttributeError
  end.

(** [enumerate(l)] *)
Definition enumerate {A} (l : list A) : list (nat * A) := imap pair l.

(** ** [str] methods and the two regular expressions *)

(** [c.isspace()], which is also the class [\s] of [re] on [str]:
    TAB..CR, FS..US, SPACE, NEL (0x85) and NBSP (0xA0). *)
Definition isspace (c : ascii) : bool :=
  let n := nat_of_ascii c in
  ((9 <=? n) && (n <=? 13)) || ((28 <=? n) && (n <=? 32))
  || (n =? 133) || (n =? 160).

(** [c.lower()]: A..Z, and the Latin-1 capitals 0xC0..0xDE except the
    multiplication sign 0xD7, move up by 32. *)
Definition lower_char (c : ascii) : ascii :=
  let n := nat_of_ascii c in
  if ((65 <=? n) && (n <=? 90))
     || ((192 <=? n) && (n <=? 222) && negb (n =? 215))
  then ascii_of_nat (n + 32) else c.

Definition lower (s : list ascii) : list ascii := lower_char <$> s.

Fixpoint lstrip (s : list ascii) : list ascii :=
  match s with
  | [] => []
  | c :: s' => if isspace c then lstrip s' else s
  end.

Definition rstrip (s : list ascii) : list ascii := rev (lstrip (rev s)).

(** [s.strip()] *)
Definition strip (s : list ascii) : list ascii := rstrip (lstrip s).

(** The class [[a-z0-9]]. *)
Definition is_az09 (c : ascii) : bool :=
  let n := nat_of_ascii c in
  ((97 <=? n) && (n <=? 122)) || ((48 <=? n) && (n <=? 57)).

(** [re.sub(r"[^a-z0-9\s]", "", s)]: every character outside the class
    is deleted. *)
Definition sub_punct (s : list ascii) : list ascii :=
  List.filter (λ c, is_az09 c || isspace c) s.

(** [re.sub(r"\s+", " ", s)]: every maximal run of white space becomes
    one SPACE.  A white-space character followed by another one is
    dropped; the last of a run is replaced. *)
Fixpoint sub_spaces (s : list ascii) : list ascii :=
  match s with
  | [] => []
  | c :: s' =>
      if isspace c then
        match s' with
        | c' :: _ => if isspace c' then sub_spaces s' else " "%char :: sub_spaces s'
        | [] => [" "%char]
        end
      else c :: sub_spaces s'
  end.

End Py.

Export Py.

(* ================================================================== *)
(** * [difflib.SequenceMatcher(None, a, b).ratio()]                    *)
(* ================================================================== *)

(** The standard-library class the matcher scores with, after CPython's
    [Lib/difflib.py], for [isjunk = None] and [autojunk = True] as
    [find_best] constructs it.  With no junk predicate [bjunk] is empty,
    so the two loops of [find_longest_match] that extend a match over
    junk never run and are not modelled. *)

Module difflib.

(** A [Match(a, b, size)] triple. *)
Definition Match : Type := nat * nat * nat.

(** [__chain_b]: for every element of [b] the ascending list of its
    positions; when [b] has 200 elements or more, the elements that
    occur more than [n // 100 + 1] times ("popular") are deleted. *)
Definition chain_b (b : list ascii) : gmap ascii (list nat) :=
  let b2j :=
    foldl (λ (m : gmap ascii (list nat)) '(i, elt),
             <[elt := default [] (m !! elt) ++ [i]]> m)
          ∅ (enumerate b) in
  let n := length b in
  if 200 <=? n then
    let ntest := n / 100 + 1 in
    filter (λ kv, ¬ (ntest < length kv.2)) b2j
  else b2j.

Section find_longest_match.
Variables (a b : list ascii) (b2j : gmap ascii (list nat)).
Variables (alo ahi blo bhi : nat).

(** [j2len.get(j-1, 0)]; no key is negative. *)
Definition j2lenget (j2len : gmap nat nat) (j : nat) : nat :=
  match j with
  | 0 => 0
  | S j' => default 0 (j2len !! j')
  end.

(** The inner loop [for j in b2j.get(a[i], nothing)], with its
    [continue] and [break].  The loop state is [newj2len] and the best
    triple.  [k] never exceeds [i + 1] and [j + 1], so [i + 1 - k] and
    [j + 1 - k] are the integers [i-k+1] and [j-k+1]. *)
Fixpoint inner_loop (i : nat) (j2len : gmap nat nat) (js : list nat)
    (st : gmap nat nat * Match) : gmap nat nat * Match :=
  match js with
  | [] => st
  | j :: js' =>
      if j <? blo then inner_loop i j2len js' st
      else if bhi <=? j then st
      else
        let '(newj2len, (besti, bestj, bestsize)) := st in
        let k := j2lenget j2len j + 1 in
        inner_loop i j2len js'
          (<[j := k]> newj2len,
           if bestsize <? k then (i + 1 - k, j + 1 - k, k)
           else (besti, bestj, bestsize))
  end.

(** One round of [for i in range(alo, ahi)]; the state is [j2len] and
    the best triple. *)
Definition outer_step (st : gmap nat nat * Match) (i : nat)
    : gmap nat nat * Match :=
  let js := match a !! i with
            | Some elt => default [] (b2j !! elt)
            | None => []
            end in
  inner_loop i st.1 js (∅, st.2).

(** [while besti > alo and bestj > blo and a[besti-1] == b[bestj-1]] *)
Fixpoint extend_left (besti bestj bestsize : nat) : Match :=
  match besti, bestj with
  | S i', S j' =>
      if (alo <? besti) && (blo <? bestj)
         && bool_decide (is_Some (a !! i') ∧ a !! i' = b !! j')
      then extend_left i' j' (S bestsize)
      else (besti, bestj, bestsize)
  | _, _ => (besti, bestj, bestsize)
  end.

(** [while besti+bestsize < ahi and bestj+bestsize < bhi and
    a[besti+bestsize] == b[bestj+bestsize]]; [n] is
    [ahi - (besti+bestsize)], the rounds the first test allows. *)
Fixpoint extend_right (besti bestj bestsize n : nat) : nat :=
  match n with
  | 0 => bestsize
  | S n' =>
      if (bestj + bestsize <? bhi)
         && bool_decide (is_Some (a !! (besti + bestsize))
                         ∧ a !! (besti + bestsize) = b !! (bestj + bestsize))
      then extend_right besti bestj (S bestsize) n'
      else bestsize
  end.

Definition find_longest_match : Match :=
  let st := foldl outer_step (∅, (alo, blo, 0)) (seq alo (ahi - alo)) in
  let '(besti, bestj, bestsize) := st.2 in
  let '(besti, bestj, bestsize) := extend_left besti bestj bestsize in
  let bestsize :=
    extend_right besti bestj bestsize (ahi - (besti + bestsize)) in
  (besti, bestj, bestsize).
End find_longest_match.

(** The [while queue:] loop of [get_matching_blocks].  The Python list
    [queue] is used as a stack; its top is the head here.  Every round
    pops one range, and the ranges it pushes are strictly shorter, so
    [2 * len(a) + 1] rounds empty the queue ([blocks_loop_fuel] below):
    [None] is never returned from that bound. *)
Fixpoint blocks_loop (a b : list ascii) (b2j : gmap ascii (list nat))
    (fuel : nat) (queue : list (nat * nat * nat * nat))
    (matching_blocks : list Match) : option (list Match) :=
  match queue with
  | [] => Some matching_blocks
  | (alo, ahi, blo, bhi) :: queue =>
      match fuel with
      | 0 => None
      | S fuel =>
          let '(i, j, k) := find_longest_match a b b2j alo ahi blo bhi in
          if k =? 0 then blocks_loop a b b2j fuel queue matching_blocks
          else
            let queue :=
              if (alo <? i) && (blo <? j) then (alo, i, blo, j) :: queue
              else queue in
            let queue :=
              if (i + k <? ahi) && (j + k <? bhi)
              then (i + k, ahi, j + k, bhi) :: queue
              else queue in
            blocks_loop a b b2j fuel queue (matching_blocks ++ [(i, j, k)])
      end
  end.

(** Tuple order, for [matching_blocks.sort()]. *)
Definition Match_leb (x y : Match) : bool :=
  let '(i1, j1, k1) := x in
  let '(i2, j2, k2) := y in
  (i1 <? i2) || ((i1 =? i2) && ((j1 <? j2) || ((j1 =? j2) && (k1 <=? k2)))).

Fixpoint insert_sorted (x : Match) (l : list Match) : list Match :=
  match l with
  | [] => [x]
  | y :: l' => if Match_leb x y then x :: l else y :: insert_sorted x l'
  end.

Definition sort (l : list Match) : list Match := foldr insert_sorted [] l.

(** The loop that merges adjacent blocks; the state is the pending
    block [(i1, j1, k1)] and [non_adjacent]. *)
Definition collapse_step (st : Match * list Match) (x : Match)
    : Match * list Match :=
  let '((i1, j1, k1), non_adjacent) := st in
  let '(i2, j2, k2) := x in
  if (i1 + k1 =? i2) && (j1 + k1 =? j2) then ((i1, j1, k1 + k2), non_adjacent)
  else ((i2, j2, k2),
        if k1 =? 0 then non_adjacent else non_adjacent ++ [(i1, j1, k1)]).

Definition get_matching_blocks (a b : list ascii) : list Match :=
  let la := length a in
  let lb := length b in
  let matching_blocks :=
    default [] (blocks_loop a b (chain_b b) (2 * la + 1) [(0, la, 0, lb)] []) in
  let '((i1, j1, k1), non_adjacent) :=
    foldl collapse_step ((0, 0, 0), []) (sort matching_blocks) in
  let non_adjacent :=
    if k1 =? 0 then non_adjacent else non_adjacent ++ [(i1, j1, k1)] in
  non_adjacent ++ [(la, lb, 0)].

(** [_calculate_ratio]: [2.0 * matches / length], and [1.0] when
    [length] is zero. *)
Definition _calculate_ratio (matches length : nat) : Q :=
  if length =? 0 then 1%Q
  else Qred (Z.of_nat (2 * matches) # Pos.of_nat length).

Definition ratio_list (a b : list ascii) : Q :=
  let matches := sum_list ((λ triple : Match, triple.2) <$> get_matching_blocks a b) in
  _calculate_ratio matches (length a + length b).

(** [SequenceMatcher(None, a, b).ratio()] *)
Definition ratio (a b : string) : Q :=
  ratio_list (list_ascii_of_string a) (list_ascii_of_string b).

End difflib.

(* ================================================================== *)
(** * The [Matcher] class                                              *)
(* ================================================================== *)

(** [y > x] on scores; [y >= x] is [Qle_bool x y]. *)
Definition Qlt_bool (x y : Q) : bool :=
  (Qnum x * QDen y <? Qnum y * QDen x)%Z.

(** The attributes of a [Matcher] instance. *)
Record Matcher : Type := mkMatcher {
  cutoff : Q;
  kb : json;
  questions : list json;
  _questions_proc : list string
}.

(** Methods that assign attributes: state passing over [self], with
    exceptions.  An exception leaves the assignments made before it. *)
Definition M (A : Type) : Type := Matcher → Matcher * result A.

#[global] Instance M_ret : MRet M := λ A a self, (self, Ok a).
#[global] Instance M_bind : MBind M := λ A B k m self,
  match m self with
  | (self', Ok a) => k a self'
  | (self', Raise e) => (self', Raise e)
  end.

Definition lift {A} (r : result A) : M A := λ self, (self, r).
Definition getattr {A} (f : Matcher → A) : M A := λ self, (self, Ok (f self)).
Definition set_kb (v : json) : M unit := λ self,
  (mkMatcher (cutoff self) v (questions self) (_questions_proc self), Ok ()).
Definition set_questions (v : list json) : M unit := λ self,
  (mkMatcher (cutoff self) (kb self) v (_questions_proc self), Ok ()).
Definition set_questions_proc (v : list string) : M unit := λ self,
  (mkMatcher (cutoff self) (kb self) (questions self) v, Ok ()).

(** The four string operations of [_preprocess], in order. *)
Definition normalize (s : string) : string :=
  let s := strip (lower (list_ascii_of_string s)) in
  let s := sub_punct s in
  let s := sub_spaces s in
  string_of_list_ascii s.

(** [_preprocess]: [(s or "")] replaces a false value by the empty
    string; anything else than a [str] has no [lower] method. *)
Definition _preprocess (s : json) : result string :=
  match or_ s (JStr "") with
  | JStr s => Ok (normalize s)
  | JNull | JBool _ | JNum _ | JArr _ | JObj _ => Raise AttributeError
  end.

(** [_load_kb]; [src] is the outcome of [open] and [json.load]. *)
Definition _load_kb (src : result json) : M unit :=
  j ← lift src;
  set_kb j;;
  kb ← getattr kb;
  qs ← lift (items ← iter kb;
             mapM (λ item, get item "question" (JStr "")) items);
  set_questions qs;;
  questions ← getattr questions;
  ps ← lift (mapM _preprocess questions);
  set_questions_proc ps.

(** [__init__]: the attributes [kb], [questions] and [_questions_proc]
    do not exist before the first load; the placeholders given to them
    here are overwritten by a load that succeeds, and no object is
    returned by one that raises. *)
Definition __init__ (src : result json) (cutoff : Q) : result Matcher :=
  match _load_kb src (mkMatcher cutoff JNull [] []) with
  | (self, Ok _) => Ok self
  | (_, Raise e) => Raise e
  end.

Definition reload_kb (src : result json) : M unit := _load_kb src.

(** One round of the scan of [find_best]; the state is
    [(best_idx, best_score)]. *)
Definition scan_step (q : string) (best : Z * Q) (iq : nat * string) : Z * Q :=
  let '(best_idx, best_score) := best in
  let '(i, q_proc) := iq in
  let score := difflib.ratio q q_proc in
  if Qlt_bool best_score score then (Z.of_nat i, score)
  else (best_idx, best_score).

Definition scan (q : string) (questions_proc : list string) : Z * Q :=
  foldl (scan_step q) ((-1)%Z, 0%Q) (enumerate questions_proc).

Definition find_best (self : Matcher) (query : string)
    : result (json * json * Q) :=
  q ← _preprocess (JStr query);
  let '(best_idx, best_score) := scan q (_questions_proc self) in
  if negb (best_idx =? -1)%Z && Qle_bool (cutoff self) best_score then
    entry ← getitem_int (kb self) best_idx;
    answer ← getitem_str entry "answer";
    matched ← list_getitem (questions self) best_idx;
    mret (answer, matched, best_score)
  else
    matched ← (if negb (best_idx =? -1)%Z
               then list_getitem (questions self) best_idx
               else mret (JStr ""));
    mret (JStr "", matched, best_score).

Definition get_answer_with_score (self : Matcher) (query : string)
    : result (json * json * Q) :=
  '(answer, matched_q, score) ← find_best self query;
  mret (answer, matched_q, score).

(* ================================================================== *)
(** * Vocabulary of the statements                                     *)
(* ================================================================== *)

(** A block lies inside the window that was searched. *)
Definition in_window (alo ahi blo bhi : nat) (x : difflib.Match) : Prop :=
  alo ≤ x.1.1 ∧ x.1.1 + x.2 ≤ ahi ∧ blo ≤ x.1.2 ∧ x.1.2 + x.2 ≤ bhi.

(** [j2len] before round [i]: a run of length [k] ending at [b[j]] and
    [a[i-1]] starts inside the window. *)
Definition j2len_ok (alo blo bhi i : nat) (j2len : gmap nat nat) : Prop :=
  ∀ j k, j2len !! j = Some k → 1 ≤ k ∧ alo + k ≤ i ∧ blo + k ≤ j + 1 ∧ j < bhi.

(** The length of the [a]-ranges still queued, counted so that every
    round of the loop lowers it. *)
Definition queue_weight (queue : list (nat * nat * nat * nat)) : nat :=
  sum_list ((λ r : nat * nat * nat * nat, 2 * (r.1.1.2 - r.1.1.1) + 1) <$> queue).

Definition range_ok (r : nat * nat * nat * nat) : Prop :=
  r.1.1.1 ≤ r.1.1.2 ∧ r.1.2 ≤ r.2.

(** [s.strip()] on a [str], and the pipeline of [normalize] on the list
    of characters. *)
Definition str_strip (s : string) : string :=
  string_of_list_ascii (strip (list_ascii_of_string s)).

Definition normalize_chars (s : list ascii) : list ascii :=
  sub_spaces (sub_punct (strip (lower s))).

(** The shape of a normalised string: lower-case letters, digits, and
    SPACE characters each followed by a letter or digit or by the end. *)
Fixpoint tidy (s : list ascii) : bool :=
  match s with
  | [] => true
  | c :: s' =>
      (is_az09 c
       || (Ascii.eqb c " "
           && match s' with
              | c' :: _ => is_az09 c'
              | [] => true
              end))
      && tidy s'
  end.

(** The scores of a query against the cached questions, in order. *)
Definition scores (self : Matcher) (query : string) : list Q :=
  difflib.ratio (normalize query) <$> _questions_proc self.

(** [i] is the first index at which [l] takes its maximum, [s]. *)
Definition first_max (l : list Q) (i : nat) (s : Q) : Prop :=
  l !! i = Some s
  ∧ (∀ j x, l !! j = Some x → (x <= s)%Q)
  ∧ (∀ j x, j < i → l !! j = Some x → (x < s)%Q).

(** The cache is parallel to the knowledge base: as long as it, and its
    entry at every index is the normalised question of the entry of the
    knowledge base at that index. *)
Definition parallel (self : Matcher) : Prop :=
  len (kb self) = Ok (length (_questions_proc self))
  ∧ ∀ i p, _questions_proc self !! i = Some p →
      ∃ entry q,
        getitem_int (kb self) (Z.of_nat i) = Ok entry
        ∧ get entry "question" (JStr "") = Ok q
        ∧ questions self !! i = Some q
        ∧ _preprocess q = Ok p.

(** An entry of the load source as the specification describes it: an
    object whose ["question"] and ["answer"], when present, are
    strings. *)
Definition well_formed_entry (o : gmap string json) : Prop :=
  (∀ v, o !! "question" = Some v → ∃ s, v = JStr s)
  ∧ (∀ v, o !! "answer" = Some v → ∃ s, v = JStr s).

(** [m] is what a load or a reload that succeeded has left. *)
Definition loaded (m : Matcher) : Prop :=
  ∃ src self, _load_kb src self = (m, Ok ()).

(* ================================================================== *)
(** * Knowledge bases used as examples                                 *)
(* ================================================================== *)

Definition entry (question answer : string) : json :=
  JObj {[ "question" := JStr question; "answer" := JStr answer ]}.

(** The placeholder object that [__init__] loads into. *)
Definition blank (cutoff : Q) : Matcher := mkMatcher cutoff JNull [] [].

Definition kb_password : json :=
  JArr [entry "How do I reset my password?" "Click forgot password."].
Definition m_password : Matcher :=
  mkMatcher (11 # 20) kb_password
    [JStr "How do I reset my password?"] ["how do i reset my password"].

Definition kb_abc : json := JArr [entry "abc" "x"].
Definition m_abc : Matcher := mkMatcher (11 # 20) kb_abc [JStr "abc"] ["abc"].

(** An entry without an ["answer"] key. *)
Definition kb_no_answer : json := JArr [JObj {[ "question" := JStr "hi" ]}].
Definition m_no_answer : Matcher :=
  mkMatcher (11 # 20) kb_no_answer [JStr "hi"] ["hi"].

(** An entry with an empty answer, which the query ["aaaaaaaaaaa"]
    scores [22 / 40]. *)
Definition kb_boundary : json :=
  JArr [entry "aaaaaaaaaaabbbbbbbbbbbbbbbbbb" ""].
Definition m_boundary : Matcher :=
  mkMatcher (11 # 20) kb_boundary
    [JStr "aaaaaaaaaaabbbbbbbbbbbbbbbbbb"] ["aaaaaaaaaaabbbbbbbbbbbbbbbbbb"].

Definition kb_boundary_answer : json :=
  JArr [entry "aaaaaaaaaaabbbbbbbbbbbbbbbbbb" "found"].
Definition m_boundary_answer : Matcher :=
  mkMatcher (11 # 20) kb_boundary_answer
    [JStr "aaaaaaaaaaabbbbbbbbbbbbbbbbbb"] ["aaaaaaaaaaabbbbbbbbbbbbbbbbbb"].

Definition kb_two : json := JArr [entry "abc" "first"; entry "abd" "second"].
Definition m_two : Matcher :=
  mkMatcher (11 # 20) kb_two [JStr "abc"; JStr "abd"] ["abc"; "abd"].

(** A single object where a list of objects is expected. *)
Definition kb_wrong_shape : json := entry "abc" "x".

(** A question that normalises to the empty string, after one that does
    not. *)
Definition kb_blank_question : json :=
  JArr [entry "abc" "x"; entry " ... " "Please type a question."].
Definition m_blank_question : Matcher :=
  mkMatcher (11 # 20) kb_blank_question [JStr "abc"; JStr " ... "] ["abc"; ""].

(** ** The specification's own wording *)

(** The first index of the maximum of a list of scores. *)
Fixpoint argmax (l : list Q) : option (nat * Q) :=
  match l with
  | [] => None
  | x :: l' =>
      match argmax l' with
      | Some (i, y) => if Qlt_bool x y then Some (S i, y) else Some (0, x)
      | None => Some (0, x)
      end
  end.

(** [find_best] as the specification describes its output: the best
    entry is the one of maximal score whenever the knowledge base is not
    empty, and a missing field reads as the empty string. *)
Definition spec_find_best (self : Matcher) (query : string)
    : result (json * json * Q) :=
  match argmax (scores self query) with
  | None => Ok (JStr "", JStr "", 0%Q)
  | Some (i, s) =>
      entry ← getitem_int (kb self) (Z.of_nat i);
      question ← get entry "question" (JStr "");
      answer ← get entry "answer" (JStr "");
      if Qle_bool (cutoff self) s then Ok (answer, question, s)
      else Ok (JStr "", question, s)
  end.

(** Reload as the specification describes it: after an attempt either
    the knowledge base and the cache both come from the new source, or
    both are what they were. *)
Definition reload_atomic (self : Matcher) (src : result json) : Prop :=
  match reload_kb src self with
  | (self', Ok _) => src = Ok (kb self') ∧ parallel self'
  | (self', Raise _) =>
      kb self' = kb self ∧ _questions_proc self' = _questions_proc self
  end.

(** A confident match as the specification describes it: a result whose
    answer is a string that is not empty. *)
Definition confident (r : result (json * json * Q)) : Prop :=
  ∃ answer matched score, r = Ok (JStr answer, matched, score) ∧ answer ≠ "".

(** A checker for [first_max] on concrete lists. *)
Definition first_maxb (l : list Q) (i : nat) (s : Q) : bool :=
  match l !! i with
  | Some x => (Qnum x =? Qnum s)%Z && (Qden x =? Qden s)%positive
  | None => false
  end
  && forallb (λ x, Qle_bool x s) l
  && forallb (λ x, Qlt_bool x s) (take i l).

(* ================================================================== *)
(** * The script run under [if __name__ == "__main__"]                 *)
(* ================================================================== *)

(** [s.lower()] on a [str]. *)
Definition str_lower (s : string) : string :=
  string_of_list_ascii (lower (list_ascii_of_string s)).

(** What the script writes: the prompt of [input], or a [print]ed text. *)
Inductive event : Type :=
  | Prompted (text : string)
  | Printed (text : string).

(** How the script ends: by [break], by the [EOFError] of [input] when
    the input is exhausted, or by an exception nothing catches. *)
Inductive ending : Type :=
  | Break
  | EOFError
  | Uncaught (e : exn).

Section script.
(** The text [str(v)] of a value that is not a [str], and
    [format(score, ".3f")], are the formatting of the Python run time
    and stay parameters. *)
Variables (str_other : json → string) (format_3f : Q → string).

(** [str(v)], which is also what an f-string field without a format
    specification shows. *)
Definition str (v : json) : string :=
  match v with
  | JStr s => s
  | JNull | JBool _ | JNum _ | JArr _ | JObj _ => str_other v
  end.

Definition prompt : string := "Enter question (or 'q' to quit): ".

(** The line feed of the first f-string. *)
Definition nl : string := String (ascii_of_nat 10) EmptyString.

(** The text of the [print] of one round: the branch on [if ans]. *)
Definition report (ans matched : json) (score : Q) : string :=
  if truthy ans then
    "Answer: " +:+ str ans +:+ nl +:+ "Matched question: " +:+ str matched
    +:+ nl +:+ "Score: " +:+ format_3f score
  else
    "No confident match (best match: '" +:+ str matched +:+ "' score="
    +:+ format_3f score +:+ ").".

(** The [while True] loop over the lines still to be read; the state is
    the unread input and what was written so far. *)
Fixpoint main_loop (m : Matcher) (stdin : list string) (stdout : list event)
    : list string * list event * ending :=
  match stdin with
  | [] => ([], stdout ++ [Prompted prompt], EOFError)
  | line :: stdin =>
      let stdout := stdout ++ [Prompted prompt] in
      let q := str_strip line in
      if bool_decide (str_lower q ∈ ["q"; "quit"; "exit"])
      then (stdin, stdout, Break)
      else
        match get_answer_with_score m q with
        | Raise e => (stdin, stdout, Uncaught e)
        | Ok (ans, matched, score) =>
            main_loop m stdin (stdout ++ [Printed (report ans matched score)])
        end
  end.

(** The script: [m = Matcher()] with the default cutoff, then the loop. *)
Definition main (src : result json) (stdin : list string)
    : list string * list event * ending :=
  match __init__ src (11 # 20) with
  | Raise e => (stdin, [], Uncaught e)
  | Ok m => main_loop m stdin []
  end.

(** A line that ends the loop. *)
Definition quit_word (line : string) : Prop :=
  str_lower (str_strip line) ∈ ["q"; "quit"; "exit"].

(** [ev] is what the loop prints for [line]. *)
Definition answered (m : Matcher) (line : string) (ev : event) : Prop :=
  ∃ ans matched score,
    get_answer_with_score m (str_strip line) = Ok (ans, matched, score)
    ∧ ev = Printed (report ans matched score).

End script.

(* ================================================================== *)
(** * Vocabulary of the further properties                             *)
(* ================================================================== *)

(** A value that [_preprocess] accepts: a [str] or a false value. *)
Definition question_ok (v : json) : bool :=
  match v with
  | JStr _ => true
  | JNull | JBool _ | JNum _ | JArr _ | JObj _ => negb (truthy v)
  end.

(** The sources that [_load_kb] loads: a list of objects whose
    ["question"] is absent, a [str] or a false value; or an empty object
    or an empty string, which iterate like an empty list. *)
Definition loadable (j : json) : Prop :=
  match j with
  | JArr l =>
      Forall (λ item, ∃ o, item = JObj o
                ∧ question_ok (default (JStr "") (o !! "question")) = true) l
  | JObj m => m = ∅
  | JStr s => s = ""
  | JNull | JBool _ | JNum _ => False
  end.

(** The characters of a [str]. *)
Definition chars (s : string) : list ascii := list_ascii_of_string s.

(** The number of matched characters of a list of blocks, as [ratio]
    sums it. *)
Definition matched (l : list difflib.Match) : nat :=
  sum_list ((λ triple : difflib.Match, triple.2) <$> l).

(** The lengths of the queued ranges of [a] and of [b]. *)
Definition queue_a (queue : list (nat * nat * nat * nat)) : nat :=
  sum_list ((λ r : nat * nat * nat * nat, r.1.1.2 - r.1.1.1) <$> queue).
Definition queue_b (queue : list (nat * nat * nat * nat)) : nat :=
  sum_list ((λ r : nat * nat * nat * nat, r.2 - r.1.2) <$> queue).

(** The positions of [c] in [b], ascending. *)
Definition positions (c : ascii) (b : list ascii) : list nat :=
  (filter (λ p : nat * ascii, p.2 = c) (enumerate b)).*1.

(** [b2j] before the popular elements are deleted. *)
Definition chain_all (b : list ascii) : gmap ascii (list nat) :=
  foldl (λ (m : gmap ascii (list nat)) '(i, elt),
           <[elt := default [] (m !! elt) ++ [i]]> m)
        ∅ (enumerate b).

(** The length of the run of elements that [b2j] keeps which ends at
    position [i] of [a] and does not reach below [alo]. *)
Fixpoint diag_run (a : list ascii) (b2j : gmap ascii (list nat))
    (alo i : nat) : nat :=
  match a !! i ≫= (b2j !!.) with
  | None => 0
  | Some _ =>
      S (match i with
         | 0 => 0
         | S i' => if alo <=? i' then diag_run a b2j alo i' else 0
         end)
  end.

(** The same run without its last element. *)
Definition run_before (a : list ascii) (b2j : gmap ascii (list nat))
    (alo i : nat) : nat :=
  match i with
  | 0 => 0
  | S i' => if alo <=? i' then diag_run a b2j alo i' else 0
  end.

(** [find_longest_match] on a sequence against itself, in the window
    [alo..] of both: the row of [j2len] built in round [i], the row of
    the round before, and the best block after the rounds below [i]. *)
Definition row_ok (a : list ascii) (b2j : gmap ascii (list nat))
    (alo i : nat) (row : gmap nat nat) : Prop :=
  ∀ j k, row !! j = Some k →
    alo ≤ j ∧ k ≤ diag_run a b2j alo i ∧ k ≤ diag_run a b2j alo j.

Definition prev_ok (a : list ascii) (b2j : gmap ascii (list nat))
    (alo i : nat) (row : gmap nat nat) : Prop :=
  (∀ j k, row !! j = Some k →
     alo ≤ j ∧ k ≤ run_before a b2j alo i ∧ k ≤ diag_run a b2j alo j)
  ∧ difflib.j2lenget row i = run_before a b2j alo i.

Definition best_ok (a : list ascii) (b2j : gmap ascii (list nat))
    (alo i : nat) (best : difflib.Match) : Prop :=
  best.1.1 = best.1.2
  ∧ (best.2 = 0 → best.1.1 = alo)
  ∧ ∀ j, alo ≤ j → j < i → diag_run a b2j alo j ≤ best.2.

(** A queued range that covers the same positions of both sequences. *)
Definition aligned (la : nat) (r : nat * nat * nat * nat) : Prop :=
  r.1.1.1 = r.1.2 ∧ r.1.1.2 = r.2 ∧ r.1.1.1 ≤ r.1.1.2 ∧ r.1.1.2 ≤ la.

(** What the loop has written after answering lines with [evs]: a
    prompt before each answer. *)
Definition transcript (evs : list event) : list event :=
  flat_map (λ ev, [Prompted prompt; ev]) evs.

(* ================================================================== *)
(** * The similarity ratio always returns                              *)
(* ================================================================== *)

Section difflib_bounds.
Import difflib.
Variables (a b : list ascii) (b2j : gmap ascii (list nat)).

Lemma j2lenget_bound alo blo bhi i j2len j :
  j2len_ok alo blo bhi i j2len → alo ≤ i → blo ≤ j →
  alo + (j2lenget j2len j + 1) ≤ i + 1 ∧ blo + (j2lenget j2len j + 1) ≤ j + 1.
Proof.
  intros Hok Hi Hj. destruct j as [|j']; simpl; [lia|].
  destruct (j2len !! j') as [k|] eqn:E; simpl; [|lia].
  destruct (Hok _ _ E) as (? & ? & ? & ?). lia.
Qed.

Lemma inner_loop_ok alo ahi blo bhi i j2len js st :
  alo ≤ i → i < ahi →
  j2len_ok alo blo bhi i j2len →
  j2len_ok alo blo bhi (i + 1) st.1 →
  in_window alo ahi blo bhi st.2 →
  j2len_ok alo blo bhi (i + 1) (inner_loop blo bhi i j2len js st).1
  ∧ in_window alo ahi blo bhi (inner_loop blo bhi i j2len js st).2.
Proof.
  intros Hlo Hhi Hold. revert st.
  induction js as [|j js IH]; intros st Hnew Hbest; simpl; [done|].
  destruct (Nat.ltb_spec j blo) as [Hj|Hj]; [by apply IH|].
  destruct (Nat.leb_spec bhi j) as [Hj'|Hj']; [done|].
  destruct st as [newj2len [[besti bestj] bestsize]].
  destruct (j2lenget_bound _ _ _ _ _ j Hold Hlo Hj) as [Hk1 Hk2].
  apply IH; simpl.
  - intros j0 k0. rewrite lookup_insert.
    case_decide as Hd; [|by apply Hnew].
    intros [= <-]. subst j0. lia.
  - destruct (Nat.ltb_spec bestsize (j2lenget j2len j + 1)); [|done].
    unfold in_window; simpl. lia.
Qed.

Lemma outer_loop_ok alo ahi blo bhi n : ∀ i st,
  alo ≤ i → i + n ≤ ahi →
  j2len_ok alo blo bhi i st.1 →
  in_window alo ahi blo bhi st.2 →
  in_window alo ahi blo bhi
    (foldl (outer_step a b2j blo bhi) st (seq i n)).2.
Proof.
  induction n as [|n IH]; intros i st Hlo Hhi Hj Hb; simpl; [done|].
  unfold outer_step at 2.
  match goal with |- context [inner_loop _ _ _ _ ?js _] => set (l := js) end.
  destruct (inner_loop_ok alo ahi blo bhi i st.1 l (∅, st.2)) as [H1 H2];
    [done | lia | done | | exact Hb | ].
  { intros j k. simpl. rewrite lookup_empty. done. }
  apply IH; [lia | lia | | exact H2].
  replace (S i) with (i + 1) by lia. exact H1.
Qed.

Lemma extend_left_ok alo ahi blo bhi besti : ∀ bestj bestsize,
  in_window alo ahi blo bhi (besti, bestj, bestsize) →
  in_window alo ahi blo bhi (extend_left a b alo blo besti bestj bestsize).
Proof.
  induction besti as [|i' IH]; intros bestj bestsize Hw; simpl; [done|].
  destruct bestj as [|j']; [done|].
  destruct (_ && _) eqn:E; [|done].
  apply andb_prop in E as [E _]. apply andb_prop in E as [E1 E2].
  apply Nat.ltb_lt in E1, E2.
  apply IH. unfold in_window in *; simpl in *. lia.
Qed.

Lemma extend_right_ok bhi besti bestj n : ∀ bestsize ahi,
  besti + bestsize + n ≤ ahi → bestj + bestsize ≤ bhi →
  besti + extend_right a b bhi besti bestj bestsize n ≤ ahi
  ∧ bestj + extend_right a b bhi besti bestj bestsize n ≤ bhi.
Proof.
  induction n as [|n IH]; intros bestsize ahi Ha Hb; simpl; [lia|].
  destruct (_ && _) eqn:E; [|lia].
  apply andb_prop in E as [E _]. apply Nat.ltb_lt in E.
  apply IH; lia.
Qed.

(** [find_longest_match] answers inside the window it was given. *)
Lemma find_longest_match_in_window alo ahi blo bhi :
  alo ≤ ahi → blo ≤ bhi →
  in_window alo ahi blo bhi (find_longest_match a b b2j alo ahi blo bhi).
Proof.
  intros Ha Hb. unfold find_longest_match.
  pose proof (outer_loop_ok alo ahi blo bhi (ahi - alo) alo
                (∅, (alo, blo, 0))) as H.
  destruct (foldl _ _ _).2 as [[i0 j0] k0].
  assert (Hw : in_window alo ahi blo bhi (i0, j0, k0)).
  { apply H; [lia | lia | | unfold in_window; simpl; lia].
    intros j k. simpl. rewrite lookup_empty. done. }
  clear H. apply extend_left_ok in Hw.
  destruct (extend_left _ _ _ _ _ _ _) as [[i1 j1] k1].
  unfold in_window in *; simpl in *.
  destruct (extend_right_ok bhi i1 j1 (ahi - (i1 + k1)) k1 ahi); lia.
Qed.

Lemma queue_weight_cons alo ahi blo bhi queue :
  queue_weight ((alo, ahi, blo, bhi) :: queue)
  = 2 * (ahi - alo) + 1 + queue_weight queue.
Proof. reflexivity. Qed.

Lemma blocks_loop_fuel fuel : ∀ queue matching_blocks,
  Forall range_ok queue → queue_weight queue ≤ fuel →
  is_Some (blocks_loop a b b2j fuel queue matching_blocks).
Proof.
  induction fuel as [|fuel IH]; intros queue acc Hok Hw;
    destruct queue as [|[[[alo ahi] blo] bhi] queue]; simpl; [done | | done |];
    rewrite queue_weight_cons in Hw; [lia|].
  apply Forall_cons in Hok as [[Ha Hb] Hok]; simpl in Ha, Hb.
  pose proof (find_longest_match_in_window alo ahi blo bhi Ha Hb) as Hin.
  destruct (find_longest_match _ _ _ _ _ _ _) as [[i j] k].
  unfold in_window in Hin; simpl in Hin.
  destruct (Nat.eqb_spec k 0) as [->|Hk]; [apply IH; [done | lia]|].
  destruct (Nat.ltb_spec alo i), (Nat.ltb_spec blo j),
    (Nat.ltb_spec (i + k) ahi), (Nat.ltb_spec (j + k) bhi); simpl;
    (apply IH;
     [ repeat (apply Forall_cons; split; [unfold range_ok; simpl; lia|]); done
     | rewrite ?queue_weight_cons; lia ]).
Qed.
End difflib_bounds.

(** The bound [2 * len(a) + 1] that [get_matching_blocks] gives the loop
    is enough: the loop ends with the queue empty. *)
Lemma get_matching_blocks_terminates (a b : list ascii) :
  is_Some (difflib.blocks_loop a b (difflib.chain_b b) (2 * length a + 1)
             [(0, length a, 0, length b)] []).
Proof.
  apply blocks_loop_fuel.
  - apply Forall_cons; split; [unfold range_ok; simpl; lia | done].
  - rewrite queue_weight_cons. unfold queue_weight; simpl. lia.
Qed.

(* ================================================================== *)
(** * The normaliser                                                   *)
(* ================================================================== *)

Section normaliser.

Ltac all_chars c := destruct c as [[] [] [] [] [] [] [] []]; vm_compute; congruence.

Lemma az09_not_space c : is_az09 c = true → isspace c = false.
Proof. all_chars c. Qed.

Lemma az09_lower c : is_az09 c = true → lower_char c = c.
Proof. all_chars c. Qed.

Lemma lstrip_idemp s : lstrip (lstrip s) = lstrip s.
Proof.
  induction s as [|c s IH]; simpl; [done|].
  destruct (isspace c) eqn:E; [done|]. simpl. by rewrite E.
Qed.

Lemma lstrip_snoc s c :
  isspace c = false → lstrip (s ++ [c]) = lstrip s ++ [c].
Proof.
  intros Hc. induction s as [|d s IH]; simpl; [by rewrite Hc|].
  by destruct (isspace d).
Qed.

Lemma rstrip_cons s c : isspace c = false → rstrip (c :: s) = c :: rstrip s.
Proof.
  intros Hc. unfold rstrip. simpl.
  by rewrite lstrip_snoc, rev_app_distr.
Qed.

Lemma rstrip_idemp s : rstrip (rstrip s) = rstrip s.
Proof. unfold rstrip. by rewrite rev_involutive, lstrip_idemp. Qed.

Lemma lstrip_rstrip_lstrip s : lstrip (rstrip (lstrip s)) = rstrip (lstrip s).
Proof.
  induction s as [|c s IH]; simpl; [done|].
  destruct (isspace c) eqn:E; [done|].
  rewrite rstrip_cons by done. simpl. by rewrite E.
Qed.

Lemma strip_idemp s : strip (strip s) = strip s.
Proof. unfold strip. by rewrite lstrip_rstrip_lstrip, rstrip_idemp. Qed.

(** [lstrip] keeps a suffix and [rstrip] a prefix. *)
Lemma lstrip_suffix s : ∃ p, s = p ++ lstrip s.
Proof.
  induction s as [|c s [p IH]]; simpl; [by exists []|].
  destruct (isspace c); [|by exists []].
  exists (c :: p). simpl. by rewrite <- IH.
Qed.

Lemma rstrip_prefix s : ∃ p, s = rstrip s ++ p.
Proof.
  unfold rstrip. destruct (lstrip_suffix (rev s)) as [p Hp].
  exists (rev p). rewrite <- rev_app_distr, <- Hp. by rewrite rev_involutive.
Qed.

Lemma tidy_tail c s : tidy (c :: s) = true → tidy s = true.
Proof. simpl. intros H. by apply andb_prop in H as [_ H]. Qed.

Lemma tidy_app_r p s : tidy (p ++ s) = true → tidy s = true.
Proof.
  induction p as [|c p IH]; simpl app; [done|].
  intros H. apply IH. by apply tidy_tail in H.
Qed.

Lemma tidy_app_l s p : tidy (s ++ p) = true → tidy s = true.
Proof.
  induction s as [|c s IH]; [done|].
  simpl. intros H. apply andb_prop in H as [H1 H2].
  rewrite (IH H2), andb_true_r.
  destruct s as [|d s]; [|done].
  destruct (is_az09 c); [done|]. simpl in *.
  apply andb_prop in H1 as [-> _]. done.
Qed.

Lemma tidy_strip s : tidy s = true → tidy (strip s) = true.
Proof.
  intros H. unfold strip.
  destruct (lstrip_suffix s) as [p Hp].
  destruct (rstrip_prefix (lstrip s)) as [p' Hp'].
  rewrite Hp in H. apply tidy_app_r in H.
  rewrite Hp' in H. by apply tidy_app_l in H.
Qed.

(** A tidy string is a fixed point of [lower] and of both
    substitutions. *)
Lemma tidy_lower s : tidy s = true → lower s = s.
Proof.
  unfold lower. induction s as [|c s IH]; [done|].
  intros H. simpl in H. apply andb_prop in H as [H1 H2].
  rewrite fmap_cons, (IH H2). f_equal.
  destruct (is_az09 c) eqn:E; [by apply az09_lower|].
  simpl in H1. apply andb_prop in H1 as [H1 _].
  apply Ascii.eqb_eq in H1 as ->. reflexivity.
Qed.

Lemma tidy_sub_punct s : tidy s = true → sub_punct s = s.
Proof.
  unfold sub_punct. induction s as [|c s IH]; [done|].
  simpl. intros H. apply andb_prop in H as [H1 H2].
  rewrite (IH H2).
  destruct (is_az09 c) eqn:E; [done|].
  simpl in H1. apply andb_prop in H1 as [H1 _].
  apply Ascii.eqb_eq in H1 as ->. reflexivity.
Qed.

Lemma tidy_sub_spaces s : tidy s = true → sub_spaces s = s.
Proof.
  induction s as [|c s IH]; [done|].
  intros H. pose proof H as H'. simpl in H'.
  apply andb_prop in H' as [H1 H2]. specialize (IH H2).
  cbn [sub_spaces]. rewrite IH.
  destruct (is_az09 c) eqn:E; [by rewrite (az09_not_space _ E)|].
  simpl in H1. apply andb_prop in H1 as [H1 H3].
  apply Ascii.eqb_eq in H1 as ->.
  change (isspace " ") with true. cbv iota.
  destruct s as [|d s]; [done|].
  by rewrite (az09_not_space _ H3).
Qed.

(** What the two substitutions leave is tidy. *)
Lemma sub_spaces_tidy s :
  forallb (λ c, is_az09 c || isspace c) s = true →
  tidy (sub_spaces s) = true.
Proof.
  induction s as [|c s IH]; [done|].
  intros H. simpl in H. apply andb_prop in H as [H1 H2]. specialize (IH H2).
  cbn [sub_spaces].
  destruct (isspace c) eqn:Ec.
  - destruct s as [|d s]; [done|].
    destruct (isspace d) eqn:Ed; [done|].
    simpl in H2. rewrite Ed, orb_false_r in H2.
    apply andb_prop in H2 as [Hd _].
    revert IH. cbn [sub_spaces]. rewrite Ed.
    intros IH. cbn [tidy]. cbn [tidy] in IH. rewrite IH, Hd. done.
  - rewrite orb_false_r in H1. cbn [tidy]. by rewrite H1, IH.
Qed.

Lemma sub_punct_kept s :
  forallb (λ c, is_az09 c || isspace c) (sub_punct s) = true.
Proof.
  unfold sub_punct. induction s as [|c s IH]; [done|].
  simpl. destruct (is_az09 c || isspace c) eqn:E; [|done].
  simpl. by rewrite E.
Qed.

Lemma normalize_chars_tidy s : tidy (normalize_chars s) = true.
Proof. apply sub_spaces_tidy, sub_punct_kept. Qed.

Lemma normalize_chars_tidy_input s :
  tidy s = true → normalize_chars s = strip s.
Proof.
  intros H. unfold normalize_chars.
  rewrite (tidy_lower _ H).
  rewrite (tidy_sub_punct _ (tidy_strip _ H)).
  by rewrite (tidy_sub_spaces _ (tidy_strip _ H)).
Qed.

Lemma normalize_unfold s :
  normalize s = string_of_list_ascii (normalize_chars (list_ascii_of_string s)).
Proof. reflexivity. Qed.

End normaliser.

(* ================================================================== *)
(** * The scan of [find_best]                                          *)
(* ================================================================== *)

Section scan.

Lemma Qlt_bool_iff x y : Qlt_bool x y = true ↔ (x < y)%Q.
Proof. unfold Qlt_bool, Qlt. apply Z.ltb_lt. Qed.

Lemma Qlt_bool_false x y : Qlt_bool x y = false ↔ (y <= x)%Q.
Proof. unfold Qlt_bool, Qle. rewrite Z.ltb_ge. done. Qed.

Lemma Qle_bool_false x y : Qle_bool x y = false ↔ (y < x)%Q.
Proof.
  rewrite <- not_true_iff_false, Qle_bool_iff. split.
  - apply Qnot_le_lt.
  - apply Qlt_not_le.
Qed.

Lemma first_max_unique l i s i' s' :
  first_max l i s → first_max l i' s' → i = i' ∧ s = s'.
Proof.
  intros (Hi & Hmax & Hlt) (Hi' & Hmax' & Hlt').
  assert (i = i') as <-.
  { destruct (Nat.lt_trichotomy i i') as [H|[H|H]]; [|done|].
    - specialize (Hlt' _ _ H Hi). specialize (Hmax _ _ Hi').
      destruct (Qlt_not_le _ _ Hlt' Hmax).
    - specialize (Hlt _ _ H Hi'). specialize (Hmax' _ _ Hi).
      destruct (Qlt_not_le _ _ Hlt Hmax'). }
  split; congruence.
Qed.

Lemma scan_snoc q qp x :
  scan q (qp ++ [x]) = scan_step q (scan q qp) (length qp, x).
Proof.
  unfold scan, enumerate. rewrite imap_app, foldl_app. simpl.
  by rewrite Nat.add_0_r.
Qed.

(** The loop leaves [(-1, 0.0)] when no score is positive, and
    otherwise the first index of the maximum with its score. *)
Lemma scan_spec q qp :
  (scan q qp = ((-1)%Z, 0%Q)
   ∧ ∀ x, x ∈ difflib.ratio q <$> qp → (x <= 0)%Q)
  ∨ (∃ i s, scan q qp = (Z.of_nat i, s) ∧ (0 < s)%Q
            ∧ first_max (difflib.ratio q <$> qp) i s).
Proof.
  induction qp as [|x qp IH] using rev_ind.
  - left. split; [done|]. intros x Hx. by apply elem_of_nil in Hx.
  - rewrite scan_snoc, fmap_app. simpl.
    set (l := difflib.ratio q <$> qp) in *.
    assert (Hlen : length qp = length l) by (unfold l; by rewrite length_fmap).
    destruct IH as [[-> Hall] | (i & s & -> & Hpos & Hi & Hmax & Hlt)];
      unfold scan_step.
    + destruct (Qlt_bool 0 (difflib.ratio q x)) eqn:E.
      * apply Qlt_bool_iff in E. right. eexists _, _.
        split; [done|]. split; [done|]. rewrite Hlen. repeat split.
        -- by rewrite lookup_app_r, Nat.sub_diag.
        -- intros j y Hy. apply lookup_app_Some in Hy as [Hy|[_ Hy]].
           ++ apply Qlt_le_weak, Qle_lt_trans with 0%Q; [|done].
              apply Hall, list_elem_of_lookup. eauto.
           ++ destruct (j - length l); [|done].
              injection Hy as <-. apply Qle_refl.
        -- intros j y Hj Hy. rewrite lookup_app_l in Hy by done.
           apply Qle_lt_trans with 0%Q; [|done].
           apply Hall, list_elem_of_lookup. eauto.
      * apply Qlt_bool_false in E. left. split; [done|].
        intros y Hy. apply elem_of_app in Hy as [Hy|Hy]; [by apply Hall|].
        by apply list_elem_of_singleton in Hy as ->.
    + pose proof (lookup_lt_Some _ _ _ Hi) as Hil.
      destruct (Qlt_bool s (difflib.ratio q x)) eqn:E.
      * apply Qlt_bool_iff in E. right. eexists _, _.
        split; [done|]. split; [by apply Qlt_trans with s|].
        rewrite Hlen. repeat split.
        -- by rewrite lookup_app_r, Nat.sub_diag.
        -- intros j y Hy. apply lookup_app_Some in Hy as [Hy|[_ Hy]].
           ++ apply Qlt_le_weak, Qle_lt_trans with s; [|done]. by eapply Hmax.
           ++ destruct (j - length l); [|done].
              injection Hy as <-. apply Qle_refl.
        -- intros j y Hj Hy. rewrite lookup_app_l in Hy by done.
           apply Qle_lt_trans with s; [|done]. by eapply Hmax.
      * apply Qlt_bool_false in E. right. exists i, s.
        split; [done|]. split; [done|]. repeat split.
        -- by rewrite lookup_app_l.
        -- intros j y Hy. apply lookup_app_Some in Hy as [Hy|[_ Hy]].
           ++ by eapply Hmax.
           ++ destruct (j - length l); [|done]. by injection Hy as <-.
        -- intros j y Hj Hy. rewrite lookup_app_l in Hy by lia.
           by eapply Hlt.
Qed.

End scan.

(* ================================================================== *)
(** * Loading                                                          *)
(* ================================================================== *)

Section loading.

Lemma mapM_Ok {A B} (f : A → result B) l ys :
  mapM f l = Ok ys →
  length ys = length l
  ∧ ∀ i x, l !! i = Some x → ∃ y, f x = Ok y ∧ ys !! i = Some y.
Proof.
  revert ys. induction l as [|x l IH]; intros ys; simpl.
  - intros [= <-]. split; [done|]. intros i x Hx. done.
  - destruct (f x) as [y|e] eqn:Ey; [|done]. simpl.
    destruct (mapM f l) as [ys'|e]; [|done]. simpl.
    intros [= <-]. destruct (IH _ eq_refl) as [Hlen Hget].
    split; [simpl; by rewrite Hlen|].
    intros [|i] x' Hx'; simpl in *.
    + injection Hx' as <-. eauto.
    + by apply Hget.
Qed.

Lemma list_getitem_nat {A} (l : list A) (i : nat) :
  list_getitem l (Z.of_nat i)
  = match l !! i with
    | Some x => Ok x
    | None => Raise IndexError
    end.
Proof.
  unfold list_getitem.
  destruct (Z.ltb_spec (Z.of_nat i) 0) as [H|_]; [lia|].
  destruct (Z.ltb_spec (Z.of_nat i) 0) as [H|_]; [lia|].
  by rewrite Nat2Z.id.
Qed.

(** [_load_kb], with the monad unfolded: what is assigned before each
    point at which the method can raise. *)
Lemma _load_kb_eq src self :
  _load_kb src self =
  match src with
  | Raise e => (self, Raise e)
  | Ok j =>
      match items ← iter j;
            mapM (λ item, get item "question" (JStr "")) items with
      | Raise e =>
          (mkMatcher (cutoff self) j (questions self) (_questions_proc self),
           Raise e)
      | Ok qs =>
          match mapM _preprocess qs with
          | Raise e =>
              (mkMatcher (cutoff self) j qs (_questions_proc self), Raise e)
          | Ok ps => (mkMatcher (cutoff self) j qs ps, Ok ())
          end
      end
  end.
Proof.
  destruct src as [j|e]; [|done].
  unfold _load_kb, mbind, M_bind, lift, getattr, set_kb, set_questions,
    set_questions_proc; simpl.
  reflexivity.
Qed.

(** Only a list of objects (or something empty) can be loaded. *)
Lemma loadable_items j qs :
  (items ← iter j; mapM (λ item, get item "question" (JStr "")) items) = Ok qs →
  ∃ items, iter j = Ok items
           ∧ mapM (λ item, get item "question" (JStr "")) items = Ok qs
           ∧ len j = Ok (length items)
           ∧ ∀ i, getitem_int j (Z.of_nat i)
                  = match items !! i with
                    | Some x => Ok x
                    | None => getitem_int j (Z.of_nat i)
                    end.
Proof.
  destruct j as [| | |s|l|m]; simpl; try done.
  - destruct s as [|c s]; [|done]. simpl. intros [= <-].
    exists []. by repeat split.
  - intros H. exists l. repeat split; [done|].
    intros i. rewrite list_getitem_nat. by destruct (l !! i).
  - intros H. exists (JStr <$> (map_to_list m).*1).
    split; [done|]. split; [done|].
    split; [by rewrite !length_fmap, length_map_to_list|].
    destruct (map_to_list m) as [|[k v] kvs]; [|done].
    intros i. simpl. done.
Qed.

(** After a load that succeeded the three attributes come from the new
    source alone. *)
Lemma load_ok j self self' :
  _load_kb (Ok j) self = (self', Ok ()) →
  cutoff self' = cutoff self ∧ kb self' = j
  ∧ (items ← iter j; mapM (λ item, get item "question" (JStr "")) items)
    = Ok (questions self')
  ∧ mapM _preprocess (questions self') = Ok (_questions_proc self').
Proof.
  rewrite _load_kb_eq.
  destruct (mbind (M := result) _ (iter j)) as [qs|e]; [|done].
  destruct (mapM _preprocess qs) as [ps|e] eqn:E; [|done].
  by intros [= <-].
Qed.

Lemma load_ok_parallel j self self' :
  _load_kb (Ok j) self = (self', Ok ()) → parallel self'.
Proof.
  intros H. apply load_ok in H as (_ & Hkb & Hq & Hp).
  apply loadable_items in Hq as (items & _ & Hq & Hlen & Hget).
  apply mapM_Ok in Hq as [Hl1 Hq]. apply mapM_Ok in Hp as [Hl2 Hp].
  unfold parallel. rewrite Hkb. split; [by rewrite Hlen, Hl2, Hl1|].
  intros i p Hi.
  destruct (items !! i) as [entry|] eqn:Hentry.
  - destruct (Hq _ _ Hentry) as (q & Hgq & Hqi).
    destruct (Hp _ _ Hqi) as (p' & Hpp & Hpi).
    exists entry, q. rewrite Hget, Hentry.
    repeat split; [done..|]. congruence.
  - apply lookup_lt_Some in Hi. apply lookup_ge_None in Hentry. lia.
Qed.

(** A query is a [str], which [_preprocess] normalises. *)
Lemma _preprocess_str s : _preprocess (JStr s) = Ok (normalize s).
Proof.
  unfold _preprocess, or_. simpl.
  destruct (String.eqb_spec s "") as [->|_]; done.
Qed.

(** A list of well-formed entries always loads, keys missing or not. *)
Lemma load_well_formed os self :
  Forall well_formed_entry os →
  ∃ m, _load_kb (Ok (JArr (JObj <$> os))) self = (m, Ok ())
       ∧ questions m = (λ o, default (JStr "") (o !! "question")) <$> os.
Proof.
  intros Hwf.
  assert (Hq : mapM (λ item, get item "question" (JStr "")) (JObj <$> os)
               = Ok ((λ o, default (JStr "") (o !! "question")) <$> os)).
  { clear Hwf. induction os as [|o os IH]; [done|].
    rewrite !fmap_cons. simpl. by rewrite IH. }
  assert (Hp : ∃ ps, mapM _preprocess
                 ((λ o, default (JStr "") (o !! "question")) <$> os) = Ok ps).
  { clear Hq. induction os as [|o os IH]; [by exists []|].
    apply Forall_cons in Hwf as [[Ho _] Hwf].
    destruct (IH Hwf) as [ps IH'].
    rewrite fmap_cons. cbn [mapM]. rewrite IH'.
    destruct (o !! "question") as [v|] eqn:E; cbn [default id].
    - destruct (Ho _ eq_refl) as [t ->]. rewrite _preprocess_str. by eexists.
    - rewrite _preprocess_str. by eexists. }
  destruct Hp as [ps Hp]. rewrite _load_kb_eq. simpl. rewrite Hq, Hp.
  by eexists.
Qed.

End loading.

(* ================================================================== *)
(** * [find_best]                                                      *)
(* ================================================================== *)

Section find_best_facts.

Lemma loaded_parallel m : loaded m → parallel m.
Proof.
  intros (src & self & H). destruct src as [j|e].
  - by eapply load_ok_parallel.
  - by rewrite _load_kb_eq in H.
Qed.

Lemma find_best_eq self query :
  find_best self query =
  let '(best_idx, best_score) := scan (normalize query) (_questions_proc self) in
  if negb (best_idx =? -1)%Z && Qle_bool (cutoff self) best_score then
    entry ← getitem_int (kb self) best_idx;
    answer ← getitem_str entry "answer";
    matched ← list_getitem (questions self) best_idx;
    mret (answer, matched, best_score)
  else
    matched ← (if negb (best_idx =? -1)%Z
               then list_getitem (questions self) best_idx
               else mret (JStr ""));
    mret (JStr "", matched, best_score).
Proof. unfold find_best. by rewrite _preprocess_str. Qed.

(** No positive score: nothing was recorded. *)
Lemma find_best_no_positive self query :
  (∀ x, x ∈ scores self query → (x <= 0)%Q) →
  find_best self query = Ok (JStr "", JStr "", 0%Q).
Proof.
  intros Hall. rewrite find_best_eq.
  destruct (scan_spec (normalize query) (_questions_proc self))
    as [[-> _] | (i & s & _ & Hpos & Hi & _)]; [done|].
  exfalso. apply (Qlt_not_le _ _ Hpos), Hall, list_elem_of_lookup. eauto.
Qed.

(** A positive maximum: the result is built from the entry at its
    first index. *)
Lemma find_best_first_max self query i s :
  parallel self → first_max (scores self query) i s → (0 < s)%Q →
  ∃ o, getitem_int (kb self) (Z.of_nat i) = Ok (JObj o)
       ∧ questions self !! i = Some (default (JStr "") (o !! "question"))
       ∧ find_best self query =
         if Qle_bool (cutoff self) s then
           match o !! "answer" with
           | Some answer => Ok (answer, default (JStr "") (o !! "question"), s)
           | None => Raise KeyError
           end
         else Ok (JStr "", default (JStr "") (o !! "question"), s).
Proof.
  intros [_ Hpar] Hfm Hpos.
  assert (Hscan : scan (normalize query) (_questions_proc self) = (Z.of_nat i, s)).
  { destruct (scan_spec (normalize query) (_questions_proc self))
      as [[_ Hall] | (i' & s' & -> & _ & Hfm')].
    - exfalso. destruct Hfm as (Hi & _).
      apply (Qlt_not_le _ _ Hpos), Hall, list_elem_of_lookup. eauto.
    - by destruct (first_max_unique _ _ _ _ _ Hfm Hfm') as [-> ->]. }
  destruct Hfm as (Hi & _). unfold scores in Hi.
  rewrite list_lookup_fmap in Hi.
  destruct (_questions_proc self !! i) as [p|] eqn:Hp; [|done].
  destruct (Hpar _ _ Hp) as (entry & q & Hentry & Hq & Hqi & _).
  destruct entry as [| | | | |o]; try done.
  injection Hq as <-. exists o. split; [done|]. split; [done|].
  rewrite find_best_eq, Hscan.
  assert ((Z.of_nat i =? -1)%Z = false) as -> by (apply Z.eqb_neq; lia).
  simpl negb. cbv iota. rewrite andb_true_l.
  rewrite Hentry, list_getitem_nat, Hqi.
  destruct (Qle_bool (cutoff self) s); simpl; [|done].
  by destruct (o !! "answer").
Qed.

End find_best_facts.

(* ================================================================== *)
(** * The specification's output and the example states                *)
(* ================================================================== *)

(** [argmax] returns the first index of the maximum. *)
Lemma argmax_first_max l i s : argmax l = Some (i, s) → first_max l i s.
Proof.
  revert i s. induction l as [|x l IH]; intros i s; simpl; [done|].
  destruct (argmax l) as [[i' y]|] eqn:E.
  - destruct (IH _ _ eq_refl) as (Hi & Hmax & Hlt).
    destruct (Qlt_bool x y) eqn:Exy; intros [= <- <-].
    + apply Qlt_bool_iff in Exy. split; [done|split].
      * intros [|j] z Hz; simpl in Hz.
        -- injection Hz as <-. by apply Qlt_le_weak.
        -- by eapply Hmax.
      * intros [|j] z Hj Hz; simpl in Hz.
        -- by injection Hz as <-.
        -- eapply Hlt; [|done]. lia.
    + apply Qlt_bool_false in Exy.
      split; [done|split; [|intros j z Hj; lia]].
      intros [|j] z Hz; simpl in Hz.
      * injection Hz as <-. apply Qle_refl.
      * apply Qle_trans with y; [by eapply Hmax|done].
  - intros [= <- <-]. destruct l as [|z l]; [|simpl in E].
    + split; [done|split; [|intros j z Hj; lia]].
      intros [|j] z Hz; [|done]. injection Hz as <-. apply Qle_refl.
    + destruct (argmax l) as [[i' y]|]; [destruct (Qlt_bool z y)|]; done.
Qed.

Lemma argmax_nonempty l : l ≠ [] → ∃ i s, argmax l = Some (i, s).
Proof.
  destruct l as [|x l]; [done|]. intros _. simpl.
  destruct (argmax l) as [[i y]|]; [destruct (Qlt_bool x y)|]; eauto.
Qed.

Lemma first_maxb_spec l i s : first_maxb l i s = true → first_max l i s.
Proof.
  unfold first_maxb. intros H.
  apply andb_prop in H as [H H3]. apply andb_prop in H as [H1 H2].
  repeat split.
  - destruct (l !! i) as [[n d]|]; [|done]. destruct s as [n' d'].
    apply andb_prop in H1 as [Hn Hd]. simpl in *.
    apply Z.eqb_eq in Hn. apply Pos.eqb_eq in Hd. by subst.
  - intros j x Hx. rewrite forallb_forall in H2.
    apply Qle_bool_iff, H2, list_elem_of_In, list_elem_of_lookup. eauto.
  - intros j x Hj Hx. rewrite forallb_forall in H3.
    apply Qlt_bool_iff, H3, list_elem_of_In, list_elem_of_lookup.
    exists j. by rewrite lookup_take_lt.
Qed.

(** The example states are what [__init__] builds. *)
Lemma m_password_loaded : loaded m_password.
Proof. exists (Ok kb_password), (blank (11 # 20)). vm_compute. reflexivity. Qed.

Lemma m_abc_loaded : loaded m_abc.
Proof. exists (Ok kb_abc), (blank (11 # 20)). vm_compute. reflexivity. Qed.

Lemma m_two_loaded : loaded m_two.
Proof. exists (Ok kb_two), (blank (11 # 20)). vm_compute. reflexivity. Qed.

(** The end-to-end example of the specification. *)
Example end_to_end :
  __init__ (Ok kb_password) (11 # 20) = Ok m_password
  ∧ find_best m_password "how can i reset my password"
    = Ok (JStr "Click forgot password.", JStr "How do I reset my password?",
          48 # 53)
  ∧ find_best m_password "what is the weather today"
    = Ok (JStr "", JStr "How do I reset my password?", 14 # 51).
Proof. repeat split; vm_compute; reflexivity. Qed.

(* ================================================================== *)
(** * The properties of the specification                             *)
(* ================================================================== *)

(** C1, as worded, fails: a knowledge base that is not empty has no
    best entry for [find_best] when every score is 0.0.  With the single
    question "abc" and the query "xyz" the specification's output names
    "abc" as the closest candidate; [find_best] returns the empty
    string. *)
Lemma find_best_hides_unscored_candidate :
  __init__ (Ok kb_abc) (11 # 20) = Ok m_abc
  ∧ find_best m_abc "xyz" = Ok (JStr "", JStr "", 0%Q)
  ∧ spec_find_best m_abc "xyz" = Ok (JStr "", JStr "abc", 0%Q)
  ∧ find_best m_abc "xyz" ≠ spec_find_best m_abc "xyz".
Proof.
  repeat split; try (vm_compute; reflexivity).
  intros H. vm_compute in H. discriminate H.
Qed.

(** C1 (amended): for every loaded knowledge base and every query, if
    no entry scores above 0.0 (an empty knowledge base included)
    [find_best] returns [("", "", 0.0)]; otherwise, with [i] the first
    index of the maximal score [s] and [o] the entry at [i], it returns
    the empty answer, the question of [o] and [s] when [s] is below the
    cutoff, and the answer of [o], the question of [o] and [s] when [s]
    reaches the cutoff and [o] has an answer; in both cases this is the
    output the specification describes. *)
Theorem find_best_correct m query :
  loaded m →
  ((∀ x, x ∈ scores m query → (x <= 0)%Q) →
     find_best m query = Ok (JStr "", JStr "", 0%Q))
  ∧ (∀ i s, first_max (scores m query) i s → (0 < s)%Q →
       ∃ o, getitem_int (kb m) (Z.of_nat i) = Ok (JObj o)
         ∧ ((s < cutoff m)%Q →
              find_best m query
              = Ok (JStr "", default (JStr "") (o !! "question"), s))
         ∧ (∀ answer, (cutoff m <= s)%Q → o !! "answer" = Some answer →
              find_best m query
              = Ok (answer, default (JStr "") (o !! "question"), s))
         ∧ ((s < cutoff m)%Q ∨ is_Some (o !! "answer") →
              find_best m query = spec_find_best m query)).
Proof.
  intros Hm. split; [apply find_best_no_positive|].
  intros i s Hfm Hpos.
  destruct (find_best_first_max m query i s (loaded_parallel _ Hm) Hfm Hpos)
    as (o & Ho & _ & ->).
  exists o. split; [done|]. split; [|split].
  - intros Hs. apply Qle_bool_false in Hs. by rewrite Hs.
  - intros answer Hs Ha. apply Qle_bool_iff in Hs. by rewrite Hs, Ha.
  - intros Hside. unfold spec_find_best.
    destruct (argmax_nonempty (scores m query)) as (i' & s' & Hmax).
    { destruct Hfm as (Hi & _). by destruct (scores m query). }
    rewrite Hmax. apply argmax_first_max in Hmax.
    destruct (first_max_unique _ _ _ _ _ Hfm Hmax) as [<- <-].
    rewrite Ho. simpl.
    destruct (Qle_bool (cutoff m) s) eqn:Hs; [|done].
    destruct Hside as [Hlt | [answer ->]]; [|done].
    apply Qle_bool_false in Hlt. congruence.
Qed.

Lemma find_best_correct_witness :
  loaded m_password
  ∧ first_max (scores m_password "how can i reset my password") 0 (48 # 53)
  ∧ find_best m_password "how can i reset my password"
    = Ok (JStr "Click forgot password.", JStr "How do I reset my password?",
          48 # 53).
Proof.
  assert (Hfm : first_max (scores m_password "how can i reset my password")
                  0 (48 # 53)) by (apply first_maxb_spec; vm_compute; reflexivity).
  split; [exact m_password_loaded|]. split; [exact Hfm|].
  destruct (find_best_correct m_password "how can i reset my password"
              m_password_loaded) as [_ H].
  destruct (H 0 (48 # 53) Hfm eq_refl) as (o & Ho & _ & Hans & _).
  vm_compute in Ho. injection Ho as <-.
  apply Hans; [vm_compute; discriminate | vm_compute; reflexivity].
Defined.

(** C2: an entry that lacks the ["answer"] key loads, but [find_best]
    raises [KeyError] when that entry is the confident match:
    [self.kb[best_idx]["answer"]] subscripts where [_load_kb] used
    [.get("question", "")]. *)
Theorem find_best_missing_answer_raises :
  __init__ (Ok kb_no_answer) (11 # 20) = Ok m_no_answer
  ∧ find_best m_no_answer "hi" = Raise KeyError.
Proof. split; vm_compute; reflexivity. Qed.

(** C3, as worded, fails: [strip] runs before the punctuation is
    deleted, so white space that followed leading punctuation survives
    the first application and is stripped by the second. *)
Lemma normalize_not_idempotent :
  normalize "! a" = " a"
  ∧ normalize (normalize "! a") = "a"
  ∧ normalize (normalize "! a") ≠ normalize "! a".
Proof.
  repeat split; try (vm_compute; reflexivity).
  intros H. vm_compute in H. discriminate H.
Qed.

(** C3 (amended): for every string [s], normalising [normalize s] again
    only strips it, [normalize (normalize s) = (normalize s).strip()];
    hence [normalize] is idempotent on every [s] whose normal form
    neither starts nor ends with a space, and two applications always
    reach a fixed point. *)
Theorem normalize_twice s :
  normalize (normalize s) = str_strip (normalize s)
  ∧ (str_strip (normalize s) = normalize s →
     normalize (normalize s) = normalize s)
  ∧ normalize (normalize (normalize s)) = normalize (normalize s).
Proof.
  assert (H : ∀ t, normalize (normalize t) = str_strip (normalize t)).
  { intros t. unfold str_strip. rewrite !normalize_unfold.
    rewrite list_ascii_of_string_of_list_ascii.
    by rewrite normalize_chars_tidy_input by apply normalize_chars_tidy. }
  split; [apply H|]. split; [intros Heq; by rewrite H|].
  rewrite (H (normalize s)), (H s). unfold str_strip.
  by rewrite list_ascii_of_string_of_list_ascii, strip_idemp.
Qed.

Lemma normalize_twice_witness :
  str_strip (normalize "  Hello,   World!! ") = normalize "  Hello,   World!! "
  ∧ normalize (normalize "  Hello,   World!! ") = normalize "  Hello,   World!! ".
Proof.
  assert (H : str_strip (normalize "  Hello,   World!! ")
              = normalize "  Hello,   World!! ") by (vm_compute; reflexivity).
  split; [exact H|].
  exact (proj1 (proj2 (normalize_twice "  Hello,   World!! ")) H).
Defined.

(** C4, as worded, fails: [_load_kb] assigns [self.kb] before it builds
    the two lists.  Reloading a source that parses but is a single object
    instead of a list raises [AttributeError] with the new value in [kb]
    and the old lists still in place. *)
Lemma reload_not_atomic :
  reload_kb (Ok kb_wrong_shape) m_abc
  = (mkMatcher (11 # 20) kb_wrong_shape [JStr "abc"] ["abc"],
     Raise AttributeError)
  ∧ ¬ reload_atomic m_abc (Ok kb_wrong_shape).
Proof.
  split; [vm_compute; reflexivity|].
  unfold reload_atomic.
  replace (reload_kb (Ok kb_wrong_shape) m_abc)
    with (mkMatcher (11 # 20) kb_wrong_shape [JStr "abc"] ["abc"],
          @Raise () AttributeError) by (vm_compute; reflexivity).
  intros [H _]. vm_compute in H. discriminate H.
Qed.

(** C4 (amended): for every prior state and every load source, a reload
    whose source cannot be read or parsed raises and leaves the state as
    it was; a reload that succeeds leaves exactly the state a new
    [Matcher] built from that source has, cache parallel to knowledge
    base; a reload that raises after parsing has replaced [kb], kept
    the old cache, and either kept or replaced [questions]. *)
Theorem reload_outcomes self src :
  match src, reload_kb src self with
  | Raise e, (self', r) => self' = self ∧ r = Raise e
  | Ok j, (self', Ok _) =>
      __init__ (Ok j) (cutoff self) = Ok self' ∧ kb self' = j ∧ parallel self'
  | Ok j, (self', Raise _) =>
      kb self' = j ∧ _questions_proc self' = _questions_proc self
      ∧ (questions self' = questions self
         ∨ (items ← iter j;
            mapM (λ item, get item "question" (JStr "")) items)
           = Ok (questions self'))
      ∧ cutoff self' = cutoff self
  end.
Proof.
  destruct src as [j|e]; [|done].
  destruct (reload_kb (Ok j) self) as [self' [[]|e]] eqn:E.
  - pose proof (load_ok_parallel _ _ _ E) as Hpar.
    pose proof (load_ok _ _ _ E) as (_ & Hkb & _).
    split; [|done].
    unfold reload_kb, __init__ in *. rewrite _load_kb_eq in *. simpl.
    destruct (mbind (M := result) _ (iter j)) as [qs|e]; [|done].
    destruct (mapM _preprocess qs) as [ps|e]; [|done].
    by injection E as <-.
  - unfold reload_kb in E. rewrite _load_kb_eq in E.
    destruct (mbind (M := result) _ (iter j)) as [qs|e'];
      [destruct (mapM _preprocess qs) as [ps|e'']|];
      injection E as <-; try discriminate; simpl; repeat split; auto.
Qed.

(* C5 is stated after the bounds on [ratio], in the part on the empty
   normal form. *)

(** C6, as worded, fails: at the cutoff [find_best] returns the answer
    the entry stores, which may be empty.  Here the score is exactly
    0.55 and the answer returned is the empty string. *)
Lemma cutoff_match_with_empty_answer :
  __init__ (Ok kb_boundary) (11 # 20) = Ok m_boundary
  ∧ scores m_boundary "aaaaaaaaaaa" = [11 # 20]
  ∧ find_best m_boundary "aaaaaaaaaaa"
    = Ok (JStr "", JStr "aaaaaaaaaaabbbbbbbbbbbbbbbbbb", 11 # 20)
  ∧ ¬ confident (find_best m_boundary "aaaaaaaaaaa").
Proof.
  split; [vm_compute; reflexivity|]. split; [vm_compute; reflexivity|].
  assert (H : find_best m_boundary "aaaaaaaaaaa"
              = Ok (JStr "", JStr "aaaaaaaaaaabbbbbbbbbbbbbbbbbb", 11 # 20))
    by (vm_compute; reflexivity).
  split; [exact H|]. rewrite H.
  intros (answer & matched & score & [= <- _ _] & Hne). by apply Hne.
Qed.

(** C6 (amended): the comparison with the cutoff is inclusive.  For a
    loaded matcher with cutoff 0.55, a best score of exactly 0.55 makes
    [find_best] return the stored answer of the best entry (provided the
    entry has one) with its question and the score; when every score is
    strictly below 0.55 the answer returned is empty. *)
Theorem cutoff_inclusive m query :
  loaded m → cutoff m = 11 # 20 →
  (∀ i s, first_max (scores m query) i s → (s == 11 # 20)%Q →
     ∃ o, getitem_int (kb m) (Z.of_nat i) = Ok (JObj o)
       ∧ ∀ answer, o !! "answer" = Some answer →
           find_best m query
           = Ok (answer, default (JStr "") (o !! "question"), s))
  ∧ ((∀ x, x ∈ scores m query → (x < 11 # 20)%Q) →
     ∃ matched s, find_best m query = Ok (JStr "", matched, s)).
Proof.
  intros Hm Hc. pose proof (loaded_parallel _ Hm) as Hpar. split.
  - intros i s Hfm Hs.
    assert (Hpos : (0 < s)%Q) by (rewrite Hs; reflexivity).
    destruct (find_best_first_max m query i s Hpar Hfm Hpos)
      as (o & Ho & _ & ->).
    exists o. split; [done|]. intros answer ->.
    assert (Qle_bool (cutoff m) s = true) as ->; [|done].
    apply Qle_bool_iff. rewrite Hc, Hs. apply Qle_refl.
  - intros Hall.
    destruct (scan_spec (normalize query) (_questions_proc m))
      as [[_ Hle] | (i & s & _ & Hpos & Hfm)].
    + exists (JStr ""), 0%Q. by apply find_best_no_positive.
    + destruct (find_best_first_max m query i s Hpar Hfm Hpos)
        as (o & _ & _ & ->).
      assert (Qle_bool (cutoff m) s = false) as ->; [|by eexists _, _].
      apply Qle_bool_false. rewrite Hc. destruct Hfm as (Hi & _).
      apply Hall, list_elem_of_lookup. eauto.
Qed.

Lemma cutoff_inclusive_witness :
  loaded m_boundary_answer ∧ cutoff m_boundary_answer = 11 # 20
  ∧ first_max (scores m_boundary_answer "aaaaaaaaaaa") 0 (11 # 20)
  ∧ find_best m_boundary_answer "aaaaaaaaaaa"
    = Ok (JStr "found", JStr "aaaaaaaaaaabbbbbbbbbbbbbbbbbb", 11 # 20).
Proof.
  assert (Hm : loaded m_boundary_answer).
  { exists (Ok kb_boundary_answer), (blank (11 # 20)). vm_compute. reflexivity. }
  assert (Hfm : first_max (scores m_boundary_answer "aaaaaaaaaaa") 0 (11 # 20))
    by (apply first_maxb_spec; vm_compute; reflexivity).
  split; [exact Hm|]. split; [reflexivity|]. split; [exact Hfm|].
  destruct (proj1 (cutoff_inclusive m_boundary_answer "aaaaaaaaaaa" Hm eq_refl)
              0 (11 # 20) Hfm (Qeq_refl _)) as (o & Ho & Hans).
  vm_compute in Ho. injection Ho as <-.
  apply Hans. vm_compute. reflexivity.
Defined.




(** C8: on an empty knowledge base, whatever the state before the load
    and whatever the cutoff, [find_best] and its wrapper return
    [("", "", 0.0)] for every query. *)
Theorem find_best_empty_kb self query :
  find_best (_load_kb (Ok (JArr [])) self).1 query = Ok (JStr "", JStr "", 0%Q)
  ∧ get_answer_with_score (_load_kb (Ok (JArr [])) self).1 query
    = Ok (JStr "", JStr "", 0%Q)
  ∧ ∀ cutoff, (m ← __init__ (Ok (JArr [])) cutoff; find_best m query)
              = Ok (JStr "", JStr "", 0%Q).
Proof.
  assert (H : ∀ m, _questions_proc m = [] →
                   find_best m query = Ok (JStr "", JStr "", 0%Q)).
  { intros m Hm. apply find_best_no_positive. unfold scores. rewrite Hm.
    intros x Hx. by apply elem_of_nil in Hx. }
  split; [|split].
  - by apply H; rewrite _load_kb_eq.
  - unfold get_answer_with_score. by rewrite H by (by rewrite _load_kb_eq).
  - intros cutoff. unfold __init__. rewrite _load_kb_eq. by apply H.
Qed.

(** C9, as worded, fails: a reload that raises after [kb] was assigned
    leaves a knowledge base of two items next to a cache of one. *)
Lemma failed_reload_breaks_parallel :
  parallel m_abc
  ∧ len (kb (reload_kb (Ok kb_wrong_shape) m_abc).1) = Ok 2
  ∧ length (_questions_proc (reload_kb (Ok kb_wrong_shape) m_abc).1) = 1
  ∧ ¬ parallel (reload_kb (Ok kb_wrong_shape) m_abc).1.
Proof.
  split; [exact (loaded_parallel _ m_abc_loaded)|].
  split; [vm_compute; reflexivity|]. split; [vm_compute; reflexivity|].
  intros [H _]. vm_compute in H. discriminate H.
Qed.

(** C9 (amended): after every construction and every reload that
    succeeds, the cache has the length of the knowledge base and holds
    at each index the normalised question of the entry at that index; a
    reload whose source cannot be read or parsed keeps the property, and
    [find_best] does not assign any attribute. *)
Theorem parallel_after_load :
  (∀ src cutoff m, __init__ src cutoff = Ok m → parallel m)
  ∧ (∀ src self self', reload_kb src self = (self', Ok ()) → parallel self')
  ∧ (∀ e self, parallel self → parallel (reload_kb (Raise e) self).1).
Proof.
  split; [|split].
  - intros src cutoff m H. apply loaded_parallel.
    exists src, (mkMatcher cutoff JNull [] []). unfold __init__ in H.
    destruct (_load_kb _ _) as [self' [[]|e]]; [|discriminate H].
    by injection H as <-.
  - intros src self self' H. apply loaded_parallel. by exists src, self.
  - intros e self H. unfold reload_kb. by rewrite _load_kb_eq.
Qed.

Lemma parallel_after_load_witness :
  __init__ (Ok kb_two) (11 # 20) = Ok m_two
  ∧ reload_kb (Ok kb_abc) m_two = (m_abc, Ok ())
  ∧ parallel m_two ∧ parallel m_abc.
Proof.
  assert (H1 : __init__ (Ok kb_two) (11 # 20) = Ok m_two)
    by (vm_compute; reflexivity).
  assert (H2 : reload_kb (Ok kb_abc) m_two = (m_abc, Ok ()))
    by (vm_compute; reflexivity).
  split; [exact H1|]. split; [exact H2|]. split.
  - exact (proj1 parallel_after_load _ _ _ H1).
  - exact (proj1 (proj2 parallel_after_load) _ _ _ H2).
Defined.

(** C10: whenever the query scores 0.0 against every cached question,
    [find_best] returns [("", "", 0.0)], for a knowledge base that is
    not empty as for an empty one: no index was recorded. *)
Theorem find_best_all_zero m query :
  (∀ p, p ∈ _questions_proc m → (difflib.ratio (normalize query) p == 0)%Q) →
  find_best m query = Ok (JStr "", JStr "", 0%Q).
Proof.
  intros H. apply find_best_no_positive.
  intros x Hx. unfold scores in Hx.
  apply list_elem_of_fmap in Hx as (p & -> & Hp).
  rewrite (H _ Hp). apply Qle_refl.
Qed.

Lemma find_best_all_zero_witness :
  _questions_proc m_abc = ["abc"]
  ∧ difflib.ratio (normalize "xyz") "abc" = 0%Q
  ∧ find_best m_abc "xyz" = Ok (JStr "", JStr "", 0%Q).
Proof.
  split; [reflexivity|]. split; [vm_compute; reflexivity|].
  apply (find_best_all_zero m_abc "xyz").
  intros p Hp. apply list_elem_of_singleton in Hp as ->.
  vm_compute. reflexivity.
Defined.

(* ================================================================== *)
(** * Further properties: the normaliser                               *)
(* ================================================================== *)

Section normaliser_more.

Ltac every_char c := destruct c as [[] [] [] [] [] [] [] []]; vm_compute; congruence.

Lemma lower_char_idemp c : lower_char (lower_char c) = lower_char c.
Proof. every_char c. Qed.

Lemma lower_char_space c : isspace (lower_char c) = isspace c.
Proof. every_char c. Qed.

Lemma lower_idemp s : lower (lower s) = lower s.
Proof.
  unfold lower. rewrite <- list_fmap_compose.
  apply list_fmap_ext. intros i c _. apply lower_char_idemp.
Qed.

Lemma lower_lstrip s : lower (lstrip s) = lstrip (lower s).
Proof.
  unfold lower. induction s as [|c s IH]; [done|].
  rewrite fmap_cons. simpl. rewrite lower_char_space.
  destruct (isspace c); [done|]. by rewrite fmap_cons.
Qed.

Lemma lower_rev s : lower (rev s) = rev (lower s).
Proof.
  unfold lower. induction s as [|c s IH]; [done|].
  rewrite fmap_cons. simpl. by rewrite fmap_app, IH.
Qed.

Lemma lower_strip s : lower (strip s) = strip (lower s).
Proof.
  unfold strip, rstrip.
  by rewrite lower_rev, lower_lstrip, lower_rev, lower_lstrip.
Qed.

Lemma tidy_chars s c :
  tidy s = true → c ∈ s → is_az09 c = true ∨ c = " "%char.
Proof.
  induction s as [|d s IH]; intros H Hc; [by apply elem_of_nil in Hc|].
  simpl in H. apply andb_prop in H as [H1 H2].
  apply elem_of_cons in Hc as [->|Hc]; [|by apply IH].
  destruct (is_az09 d); [by left|]. simpl in H1.
  apply andb_prop in H1 as [H1 _]. right. by apply Ascii.eqb_eq.
Qed.

Lemma tidy_single_spaces s i :
  tidy s = true → s !! i = Some " "%char → s !! S i ≠ Some " "%char.
Proof.
  revert i. induction s as [|d s IH]; intros i H Hi; [done|].
  pose proof H as H'. simpl in H'. apply andb_prop in H' as [H1 H2].
  destruct i as [|i]; [|by apply IH].
  injection Hi as ->. simpl in H1.
  destruct s as [|e s]; [done|]. simpl. intros [= ->]. done.
Qed.

Lemma lstrip_all_space s : Forall (λ c, isspace c = true) s → lstrip s = [].
Proof. induction 1 as [|c s Hc _ IH]; [done|]. simpl. by rewrite Hc. Qed.

Lemma strip_all_space s : Forall (λ c, isspace c = true) s → strip s = [].
Proof. intros H. unfold strip. by rewrite lstrip_all_space. Qed.

Lemma sub_punct_all_punct s :
  Forall (λ c, is_az09 c = false ∧ isspace c = false) s → sub_punct s = [].
Proof.
  unfold sub_punct. induction 1 as [|c s [H1 H2] _ IH]; [done|].
  simpl. by rewrite H1, H2.
Qed.

Lemma Forall_lstrip (P : ascii → Prop) s : Forall P s → Forall P (lstrip s).
Proof.
  induction 1 as [|c s Hc Hs IH]; [done|]. simpl.
  destruct (isspace c); [done|]. by constructor.
Qed.

Lemma Forall_rev' (P : ascii → Prop) s : Forall P s → Forall P (rev s).
Proof.
  induction 1 as [|c s Hc Hs IH]; [done|]. simpl.
  apply Forall_app. split; [done|]. by constructor.
Qed.

Lemma Forall_strip (P : ascii → Prop) s : Forall P s → Forall P (strip s).
Proof.
  intros H. unfold strip, rstrip.
  by apply Forall_rev', Forall_lstrip, Forall_rev', Forall_lstrip.
Qed.

Lemma str_lower_chars s : chars (str_lower s) = lower (chars s).
Proof. apply list_ascii_of_string_of_list_ascii. Qed.

Lemma str_strip_chars s : chars (str_strip s) = strip (chars s).
Proof. apply list_ascii_of_string_of_list_ascii. Qed.

Lemma normalize_chars_eq s : chars (normalize s) = normalize_chars (chars s).
Proof. apply list_ascii_of_string_of_list_ascii. Qed.

Lemma normalize_by_chars s t :
  normalize_chars (chars s) = normalize_chars (chars t) →
  normalize s = normalize t.
Proof. intros H. rewrite !normalize_unfold. unfold chars in H. by rewrite H. Qed.

End normaliser_more.

(** X1: a normalised string holds nothing but the characters a-z, 0-9
    and SPACE, and never two spaces in a row. *)
Theorem normalize_alphabet s :
  (∀ c, c ∈ chars (normalize s) → is_az09 c = true ∨ c = " "%char)
  ∧ (∀ i, chars (normalize s) !! i = Some " "%char →
          chars (normalize s) !! S i ≠ Some " "%char).
Proof.
  rewrite normalize_chars_eq. split.
  - intros c. apply tidy_chars, normalize_chars_tidy.
  - intros i. apply tidy_single_spaces, normalize_chars_tidy.
Qed.

Lemma normalize_lower_strip s :
  normalize (str_lower s) = normalize s
  ∧ normalize (str_strip s) = normalize s.
Proof.
  split; apply normalize_by_chars; unfold normalize_chars.
  - by rewrite str_lower_chars, lower_idemp.
  - by rewrite str_strip_chars, lower_strip, strip_idemp.
Qed.

(** X2: [normalize] does not see the case of its input nor the white
    space around it: lower-casing or stripping the input first changes
    nothing. *)
Theorem normalize_ignores_case_and_margin s :
  normalize (str_lower s) = normalize s
  ∧ normalize (str_strip s) = normalize s.
Proof. apply normalize_lower_strip. Qed.

(** X3: an input made of white space only, or of characters that are
    neither white space nor letters or digits only, normalises to the
    empty string. *)
Theorem normalize_blank s :
  Forall (λ c, isspace c = true) (chars s)
  ∨ Forall (λ c, is_az09 (lower_char c) = false ∧ isspace c = false) (chars s) →
  normalize s = "".
Proof.
  intros H. rewrite normalize_unfold. fold (chars s). unfold normalize_chars.
  destruct H as [H|H].
  - rewrite strip_all_space; [done|].
    unfold lower. apply Forall_fmap. eapply Forall_impl; [exact H|].
    intros c Hc. simpl. by rewrite lower_char_space.
  - rewrite sub_punct_all_punct; [done|].
    apply Forall_strip. unfold lower. apply Forall_fmap.
    eapply Forall_impl; [exact H|].
    intros c [H1 H2]. simpl. by rewrite lower_char_space.
Qed.

Lemma normalize_blank_witness :
  Forall (λ c, is_az09 (lower_char c) = false ∧ isspace c = false) (chars "?!...")
  ∧ normalize "?!..." = "".
Proof.
  assert (H : Forall (λ c, is_az09 (lower_char c) = false ∧ isspace c = false)
                (chars "?!...")) by (repeat constructor).
  split; [exact H|]. apply (normalize_blank "?!..."). right. exact H.
Defined.

(* ================================================================== *)
(** * Further properties: [find_best] and its wrapper                  *)
(* ================================================================== *)

Section find_best_more.

(** What [find_best] returns when it returns, for any state of the
    object: the best score of the scan, and an answer only from the
    branch of the confident match. *)
Lemma find_best_Ok self query answer matched s :
  find_best self query = Ok (answer, matched, s) →
  ((0 <= s)%Q ∧ (∀ x, x ∈ scores self query → (x <= s)%Q)
   ∧ (s = 0%Q ∨ s ∈ scores self query))
  ∧ (answer = JStr "" ∨ ((cutoff self <= s)%Q ∧ (0 < s)%Q)).
Proof.
  rewrite find_best_eq.
  destruct (scan_spec (normalize query) (_questions_proc self))
    as [[-> Hall] | (i & s' & -> & Hpos & Hi & Hmax & _)].
  - simpl. intros [= <- <- <-]. split; [|by left].
    split; [apply Qle_refl|]. split; [exact Hall|by left].
  - assert ((Z.of_nat i =? -1)%Z = false) as -> by (apply Z.eqb_neq; lia).
    simpl negb. cbv iota. rewrite andb_true_l.
    assert (Hbest : (0 <= s')%Q ∧ (∀ x, x ∈ scores self query → (x <= s')%Q)
                    ∧ (s' = 0%Q ∨ s' ∈ scores self query)).
    { split; [by apply Qlt_le_weak|]. split.
      - intros x Hx. apply list_elem_of_lookup in Hx as [j Hj]. by eapply Hmax.
      - right. apply list_elem_of_lookup. eauto. }
    destruct (Qle_bool (cutoff self) s') eqn:Hc.
    + apply Qle_bool_iff in Hc.
      destruct (getitem_int _ _) as [entry|]; [|done]. simpl.
      destruct (getitem_str _ _) as [a|]; [|done]. simpl.
      destruct (list_getitem _ _) as [q|]; [|done]. simpl.
      intros [= <- <- <-]. split; [done|]. by right.
    + destruct (list_getitem _ _) as [q|]; [|done]. simpl.
      intros [= <- <- <-]. split; [done|]. by left.
Qed.

End find_best_more.

(** X4: whatever the state of the matcher, [find_best] returns an
    answer other than the empty string only with a score that reaches
    the cutoff and is above 0.0. *)
Theorem find_best_no_answer_below_cutoff self query answer matched s :
  find_best self query = Ok (answer, matched, s) → answer ≠ JStr "" →
  (cutoff self <= s)%Q ∧ (0 < s)%Q.
Proof.
  intros H Ha. apply find_best_Ok in H as [_ [H|H]]; [done|exact H].
Qed.

Lemma find_best_no_answer_below_cutoff_witness :
  find_best m_password "how can i reset my password"
  = Ok (JStr "Click forgot password.", JStr "How do I reset my password?",
        48 # 53)
  ∧ (cutoff m_password <= 48 # 53)%Q ∧ (0 < 48 # 53)%Q.
Proof.
  assert (H : find_best m_password "how can i reset my password"
              = Ok (JStr "Click forgot password.",
                    JStr "How do I reset my password?", 48 # 53))
    by (vm_compute; reflexivity).
  split; [exact H|].
  apply (find_best_no_answer_below_cutoff _ _ _ _ _ H). discriminate.
Defined.

(** X5: the score [find_best] returns is the best one: no entry scores
    higher, it is never negative, and it is 0.0 or the score of some
    entry. *)
Theorem find_best_score_is_maximum self query answer matched s :
  find_best self query = Ok (answer, matched, s) →
  (0 <= s)%Q ∧ (∀ x, x ∈ scores self query → (x <= s)%Q)
  ∧ (s = 0%Q ∨ s ∈ scores self query).
Proof. intros H. by apply find_best_Ok in H as [H _]. Qed.

Lemma find_best_score_is_maximum_witness :
  find_best m_two "ab" = Ok (JStr "first", JStr "abc", 4 # 5)
  ∧ (∀ x, x ∈ scores m_two "ab" → (x <= 4 # 5)%Q).
Proof.
  assert (H : find_best m_two "ab" = Ok (JStr "first", JStr "abc", 4 # 5))
    by (vm_compute; reflexivity).
  split; [exact H|].
  exact (proj1 (proj2 (find_best_score_is_maximum _ _ _ _ _ H))).
Defined.

Lemma find_best_Raise m query e :
  loaded m → find_best m query = Raise e →
  e = KeyError
  ∧ ∃ i s o, first_max (scores m query) i s ∧ (0 < s)%Q
             ∧ (cutoff m <= s)%Q
             ∧ getitem_int (kb m) (Z.of_nat i) = Ok (JObj o)
             ∧ o !! "answer" = None.
Proof.
  intros Hm H.
  destruct (scan_spec (normalize query) (_questions_proc m))
    as [[_ Hall] | (i & s & _ & Hpos & Hfm)].
  { by rewrite find_best_no_positive in H. }
  destruct (find_best_first_max m query i s (loaded_parallel _ Hm) Hfm Hpos)
    as (o & Ho & _ & Heq).
  rewrite Heq in H.
  destruct (Qle_bool (cutoff m) s) eqn:Hc; [|done].
  destruct (o !! "answer") as [a|] eqn:Ha; [done|].
  injection H as <-. split; [done|].
  exists i, s, o. apply Qle_bool_iff in Hc. done.
Qed.

(** X6: on a loaded matcher the only exception [find_best] raises is
    [KeyError], and it raises it only for a best entry without an
    ["answer"] key whose score reaches the cutoff. *)
Theorem find_best_raises_only_KeyError m query e :
  loaded m → find_best m query = Raise e →
  e = KeyError
  ∧ ∃ i s o, first_max (scores m query) i s ∧ (0 < s)%Q
             ∧ (cutoff m <= s)%Q
             ∧ getitem_int (kb m) (Z.of_nat i) = Ok (JObj o)
             ∧ o !! "answer" = None.
Proof. apply find_best_Raise. Qed.

Lemma find_best_raises_only_KeyError_witness :
  loaded m_no_answer ∧ find_best m_no_answer "hi" = Raise KeyError
  ∧ ∃ i s o, first_max (scores m_no_answer "hi") i s ∧ (0 < s)%Q
             ∧ (cutoff m_no_answer <= s)%Q
             ∧ getitem_int (kb m_no_answer) (Z.of_nat i) = Ok (JObj o)
             ∧ o !! "answer" = None.
Proof.
  assert (Hm : loaded m_no_answer).
  { exists (Ok kb_no_answer), (blank (11 # 20)). vm_compute. reflexivity. }
  assert (H : find_best m_no_answer "hi" = Raise KeyError)
    by (vm_compute; reflexivity).
  split; [exact Hm|]. split; [exact H|].
  exact (proj2 (find_best_raises_only_KeyError _ _ _ Hm H)).
Defined.

(** X7: on a loaded matcher whose entries all have an ["answer"] key,
    [find_best] returns for every query. *)
Theorem find_best_returns m query :
  loaded m →
  (∀ i o, getitem_int (kb m) (Z.of_nat i) = Ok (JObj o) →
          is_Some (o !! "answer")) →
  ∃ answer matched s, find_best m query = Ok (answer, matched, s).
Proof.
  intros Hm Hans.
  destruct (find_best m query) as [[[answer matched] s]|e] eqn:H;
    [by eexists _, _, _|].
  destruct (find_best_Raise _ _ _ Hm H)
    as (_ & i & s & o & _ & _ & _ & Ho & Hnone).
  destruct (Hans _ _ Ho) as [a Ha]. congruence.
Qed.

Lemma find_best_returns_witness :
  loaded m_two
  ∧ ∃ answer matched s, find_best m_two "abd?" = Ok (answer, matched, s).
Proof.
  split; [exact m_two_loaded|].
  apply (find_best_returns m_two "abd?" m_two_loaded).
  intros i o Ho. change (kb m_two) with kb_two in Ho. unfold kb_two in Ho.
  simpl in Ho. rewrite list_getitem_nat in Ho.
  destruct i as [|[|i]]; simpl in Ho; [| |discriminate Ho];
    injection Ho as <-; vm_compute; eauto.
Defined.

(** X8: [find_best] sees the query through [normalize] only: two
    queries with the same normal form get the same result, and
    lower-casing or stripping the query changes nothing. *)
Theorem find_best_normalized_query self query :
  (∀ query', normalize query = normalize query' →
             find_best self query = find_best self query')
  ∧ find_best self (str_lower query) = find_best self query
  ∧ find_best self (str_strip query) = find_best self query.
Proof.
  assert (H : ∀ q q', normalize q = normalize q' →
                      find_best self q = find_best self q').
  { intros q q' Hq. by rewrite !find_best_eq, Hq. }
  split; [apply H|].
  split; apply H; apply normalize_lower_strip.
Qed.

Lemma find_best_normalized_query_witness :
  normalize "  How do I RESET my password?? " = normalize "how do i reset my password"
  ∧ find_best m_password "  How do I RESET my password?? "
    = find_best m_password "how do i reset my password".
Proof.
  assert (H : normalize "  How do I RESET my password?? "
              = normalize "how do i reset my password")
    by (vm_compute; reflexivity).
  split; [exact H|].
  exact (proj1 (find_best_normalized_query m_password _) _ H).
Defined.



(** X10: [get_answer_with_score] is [find_best]: the same triple, and
    the same exception when [find_best] raises. *)
Theorem get_answer_with_score_is_find_best self query :
  get_answer_with_score self query = find_best self query.
Proof.
  unfold get_answer_with_score.
  by destruct (find_best self query) as [[[answer matched] s]|e].
Qed.

(* ================================================================== *)
(** * Further properties: loading                                      *)
(* ================================================================== *)

Section loading_more.

Lemma _preprocess_question_ok v :
  (∃ p, _preprocess v = Ok p) ↔ question_ok v = true.
Proof.
  unfold _preprocess, or_, question_ok.
  destruct v as [|b|x|s|l|o]; simpl.
  - split; [done|]. by eexists.
  - destruct b; simpl; split; try done; [by intros [p ?]|by eexists].
  - destruct (Qeq_bool x 0); simpl; split; try done; [by eexists|by intros [p ?]].
  - split; [done|]. intros _. destruct (String.eqb s ""); by eexists.
  - destruct (bool_decide (l = [])); simpl; split; try done;
      [by eexists|by intros [p ?]].
  - destruct (bool_decide (o = ∅)); simpl; split; try done;
      [by eexists|by intros [p ?]].
Qed.


Lemma mapM_Ok_intro {A B} (f : A → result B) l :
  Forall (λ x, ∃ y, f x = Ok y) l → ∃ ys, mapM f l = Ok ys.
Proof.
  induction 1 as [|x l [y Hy] _ [ys IH]]; [by exists []|].
  exists (y :: ys). simpl. by rewrite Hy, IH.
Qed.


Lemma get_question_Ok item q :
  get item "question" (JStr "") = Ok q →
  ∃ o, item = JObj o ∧ q = default (JStr "") (o !! "question").
Proof. destruct item; simpl; try done. intros [= <-]. by eexists. Qed.

Lemma load_succeeds_loadable j self m :
  _load_kb (Ok j) self = (m, Ok ()) → loadable j.
Proof.
  intros H. apply load_ok in H as (_ & _ & Hq & Hp).
  destruct j as [|b|x|s|l|o]; simpl in *; try done.
  - by destruct s.
  - apply mapM_Ok in Hq as [_ Hq]. apply mapM_Ok in Hp as [_ Hp].
    apply Forall_lookup. intros i item Hi.
    destruct (Hq _ _ Hi) as (q & Hget & Hqi).
    destruct (get_question_Ok _ _ Hget) as (o' & -> & ->).
    exists o'. split; [done|].
    apply _preprocess_question_ok. destruct (Hp _ _ Hqi) as (p & Hpp & _).
    by exists p.
  - apply map_to_list_empty_iff. by destruct (map_to_list o) as [|[k v] kvs].
Qed.

Lemma loadable_load_succeeds j self :
  loadable j → ∃ m, _load_kb (Ok j) self = (m, Ok ()).
Proof.
  intros H. rewrite _load_kb_eq.
  destruct j as [|b|x|s|l|o]; simpl in H; try done.
  - subst s. simpl. by eexists.
  - simpl.
    assert (Hq : mapM (λ item, get item "question" (JStr "")) l
                 = Ok ((λ item, match item with
                                | JObj o => default (JStr "") (o !! "question")
                                | _ => JStr ""
                                end) <$> l)).
    { induction H as [|item l (o & -> & _) _ IH]; [done|].
      rewrite fmap_cons. simpl. by rewrite IH. }
    rewrite Hq.
    destruct (mapM_Ok_intro _preprocess
                ((λ item, match item with
                          | JObj o => default (JStr "") (o !! "question")
                          | _ => JStr ""
                          end) <$> l)) as [ps ->]; [|by eexists].
    apply Forall_fmap. eapply Forall_impl; [exact H|].
    intros item (o & -> & Hok). simpl. by apply _preprocess_question_ok.
  - subst o. simpl. rewrite map_to_list_empty. simpl. by eexists.
Qed.

End loading_more.

(** X11: [_load_kb] succeeds on a parsed source, in construction as in
    reload, exactly when the source is a list of objects each of whose
    ["question"] is absent, a string or a false value, or is an empty
    object or an empty string. *)
Theorem load_succeeds_iff j self :
  (∃ m, _load_kb (Ok j) self = (m, Ok ())) ↔ loadable j.
Proof.
  split.
  - intros [m H]. by eapply load_succeeds_loadable.
  - apply loadable_load_succeeds.
Qed.



(** X13: reload is idempotent: a second reload from the same source
    ends as the first did and leaves the state the first left, whether
    they succeed or raise. *)
Theorem reload_idempotent src self :
  reload_kb src (reload_kb src self).1 = reload_kb src self.
Proof.
  unfold reload_kb. rewrite !_load_kb_eq.
  destruct src as [j|e]; [|done].
  destruct (mbind (M := result) _ (iter j)) as [qs|e1]; [|done].
  by destruct (mapM _preprocess qs) as [ps|e2].
Qed.

(** X14: whatever its outcome, reload leaves the cutoff as it was. *)
Theorem reload_keeps_cutoff src self :
  cutoff (reload_kb src self).1 = cutoff self.
Proof.
  unfold reload_kb. rewrite _load_kb_eq.
  destruct src as [j|e]; [|done].
  destruct (mbind (M := result) _ (iter j)) as [qs|e1]; [|done].
  by destruct (mapM _preprocess qs) as [ps|e2].
Qed.

(** X15: a list of objects whose ["question"] and ["answer"], when
    present, are strings always loads: [questions] holds the question
    of each entry, the empty string for an entry without one, and the
    cache holds their normal forms in the same order. *)
Theorem load_well_formed_entries os self :
  Forall well_formed_entry os →
  _load_kb (Ok (JArr (JObj <$> os))) self
  = (mkMatcher (cutoff self) (JArr (JObj <$> os))
       ((λ o, default (JStr "") (o !! "question")) <$> os)
       ((λ o, match o !! "question" with
              | Some (JStr s) => normalize s
              | _ => ""
              end) <$> os),
     Ok ()).
Proof.
  intros Hwf. rewrite _load_kb_eq. simpl.
  assert (Hq : mapM (λ item, get item "question" (JStr "")) (JObj <$> os)
               = Ok ((λ o, default (JStr "") (o !! "question")) <$> os)).
  { clear Hwf. induction os as [|o os IH]; [done|].
    rewrite !fmap_cons. simpl. by rewrite IH. }
  rewrite Hq.
  assert (Hp : mapM _preprocess
                 ((λ o, default (JStr "") (o !! "question")) <$> os)
               = Ok ((λ o, match o !! "question" with
                           | Some (JStr s) => normalize s
                           | _ => ""
                           end) <$> os)).
  { clear Hq. induction os as [|o os IH]; [done|].
    apply Forall_cons in Hwf as [[Ho _] Hwf].
    rewrite !fmap_cons. cbn [mapM]. rewrite (IH Hwf).
    destruct (o !! "question") as [v|] eqn:E; cbn [default id].
    - destruct (Ho _ eq_refl) as [t ->]. by rewrite _preprocess_str.
    - by rewrite _preprocess_str. }
  by rewrite Hp.
Qed.

Lemma load_well_formed_entries_witness :
  Forall well_formed_entry
    [ ({[ "answer" := JStr "only an answer" ]} : gmap string json) ]
  ∧ _load_kb (Ok (JArr [JObj {[ "answer" := JStr "only an answer" ]}]))
      (blank (11 # 20))
    = (mkMatcher (11 # 20) (JArr [JObj {[ "answer" := JStr "only an answer" ]}])
         [JStr ""] [""], Ok ()).
Proof.
  assert (H : Forall well_formed_entry
                [ ({[ "answer" := JStr "only an answer" ]} : gmap string json) ]).
  { constructor; [|constructor]. split; intros v Hv.
    - vm_compute in Hv. discriminate Hv.
    - vm_compute in Hv. injection Hv as <-. by eexists. }
  split; [exact H|]. exact (load_well_formed_entries _ (blank (11 # 20)) H).
Defined.

(* ================================================================== *)
(** * Further properties: the similarity ratio                         *)
(* ================================================================== *)

Section ratio_bounds.
Import difflib.
Variables (a b : list ascii) (b2j : gmap ascii (list nat)).

Lemma matched_app l1 l2 : matched (l1 ++ l2) = matched l1 + matched l2.
Proof. unfold matched. by rewrite fmap_app, sum_list_with_app. Qed.

Lemma matched_cons x l : matched (x :: l) = x.2 + matched l.
Proof. reflexivity. Qed.

Lemma queue_a_cons alo ahi blo bhi queue :
  queue_a ((alo, ahi, blo, bhi) :: queue) = ahi - alo + queue_a queue.
Proof. reflexivity. Qed.

Lemma queue_b_cons alo ahi blo bhi queue :
  queue_b ((alo, ahi, blo, bhi) :: queue) = bhi - blo + queue_b queue.
Proof. reflexivity. Qed.

(** The blocks found never cover more than the ranges searched. *)
Lemma blocks_loop_matched fuel : ∀ queue acc res,
  Forall range_ok queue →
  blocks_loop a b b2j fuel queue acc = Some res →
  matched res ≤ matched acc + queue_a queue
  ∧ matched res ≤ matched acc + queue_b queue.
Proof.
  induction fuel as [|fuel IH]; intros queue acc res Hok;
    destruct queue as [|[[[alo ahi] blo] bhi] queue]; simpl;
    [intros [= <-]; unfold queue_a, queue_b; simpl; lia | done
    |intros [= <-]; unfold queue_a, queue_b; simpl; lia | ].
  apply Forall_cons in Hok as [[Ha Hb] Hok]; simpl in Ha, Hb.
  pose proof (find_longest_match_in_window a b b2j alo ahi blo bhi Ha Hb) as Hin.
  destruct (find_longest_match _ _ _ _ _ _ _) as [[i j] k].
  unfold in_window in Hin; simpl in Hin.
  rewrite queue_a_cons, queue_b_cons.
  destruct (Nat.eqb_spec k 0) as [->|Hk].
  { intros Hr. apply IH in Hr; [lia|done]. }
  destruct (Nat.ltb_spec alo i), (Nat.ltb_spec blo j),
    (Nat.ltb_spec (i + k) ahi), (Nat.ltb_spec (j + k) bhi); simpl;
    intros Hr; apply IH in Hr;
    try (repeat (apply Forall_cons; split; [unfold range_ok; simpl; lia|]); done);
    rewrite matched_app, ?queue_a_cons, ?queue_b_cons in Hr;
    change (matched [(i, j, k)]) with (k + 0) in Hr; lia.
Qed.

Lemma insert_sorted_matched x l :
  matched (insert_sorted x l) = x.2 + matched l.
Proof.
  induction l as [|y l IH]; simpl; [done|].
  destruct (Match_leb x y); [done|].
  rewrite !matched_cons, IH. lia.
Qed.

Lemma sort_matched l : matched (sort l) = matched l.
Proof.
  unfold sort. induction l as [|x l IH]; [done|].
  simpl. by rewrite insert_sorted_matched, IH.
Qed.

Lemma collapse_matched l : ∀ st,
  (foldl collapse_step st l).1.2 + matched (foldl collapse_step st l).2
  = st.1.2 + matched st.2 + matched l.
Proof.
  induction l as [|[[i2 j2] k2] l IH]; intros [[[i1 j1] k1] na]; simpl.
  { change (matched []) with 0. lia. }
  rewrite IH, matched_cons. simpl.
  destruct (_ && _); simpl; [lia|].
  destruct (Nat.eqb_spec k1 0) as [->|_]; [lia|].
  rewrite matched_app. change (matched [(i1, j1, k1)]) with (k1 + 0). lia.
Qed.

End ratio_bounds.

Lemma get_matching_blocks_matched a b :
  matched (difflib.get_matching_blocks a b)
  = matched (default [] (difflib.blocks_loop a b (difflib.chain_b b)
                           (2 * length a + 1) [(0, length a, 0, length b)] [])).
Proof.
  unfold difflib.get_matching_blocks.
  set (blocks := default [] _).
  pose proof (collapse_matched (difflib.sort blocks) ((0, 0, 0), [])) as H.
  destruct (foldl _ _ _) as [[[i1 j1] k1] na]. simpl in H.
  rewrite sort_matched in H. rewrite matched_app.
  change (matched []) with 0 in H.
  change (matched [(length a, length b, 0)]) with 0.
  destruct (Nat.eqb_spec k1 0) as [->|_]; [lia|].
  rewrite matched_app. change (matched [(i1, j1, k1)]) with (k1 + 0). lia.
Qed.

Lemma get_matching_blocks_bound a b :
  matched (difflib.get_matching_blocks a b) ≤ length a
  ∧ matched (difflib.get_matching_blocks a b) ≤ length b.
Proof.
  rewrite get_matching_blocks_matched.
  destruct (get_matching_blocks_terminates a b) as [res Hres].
  rewrite Hres. simpl.
  apply blocks_loop_matched in Hres.
  - unfold queue_a, queue_b, matched in *. simpl in *. lia.
  - apply Forall_cons; split; [unfold range_ok; simpl; lia | done].
Qed.

Lemma Qred_zero p : Qred (0 # p) = 0%Q.
Proof. apply (Qred_complete (0 # p) 0). reflexivity. Qed.

Lemma ratio_list_matched a b :
  difflib.ratio_list a b
  = difflib._calculate_ratio (matched (difflib.get_matching_blocks a b))
      (length a + length b).
Proof. reflexivity. Qed.

(** [ratio] is a number between 0 and 1. *)
Lemma ratio_bounds a b : (0 <= difflib.ratio a b <= 1)%Q.
Proof.
  unfold difflib.ratio. rewrite ratio_list_matched.
  destruct (get_matching_blocks_bound (list_ascii_of_string a)
              (list_ascii_of_string b)) as [Ha Hb].
  set (la := length (list_ascii_of_string a)) in *.
  set (lb := length (list_ascii_of_string b)) in *.
  set (n := matched _) in *.
  unfold difflib._calculate_ratio.
  destruct (Nat.eqb_spec (la + lb) 0) as [_|Hn]; [done|].
  rewrite Qred_correct. unfold Qle. simpl.
  assert (Z.pos (Pos.of_nat (la + lb)) = Z.of_nat (la + lb)) as ->.
  { destruct (la + lb) as [|t] eqn:E; [done|]. by rewrite <- Pos.of_nat_succ, Zpos_P_of_succ_nat, Nat2Z.inj_succ. }
  lia.
Qed.

(** X16: the score [find_best] returns lies between 0.0 and 1.0. *)
Theorem find_best_score_in_unit_interval self query answer matched_q s :
  find_best self query = Ok (answer, matched_q, s) → (0 <= s <= 1)%Q.
Proof.
  intros H. apply find_best_Ok in H as [(H0 & _ & [->|Hs]) _]; [done|].
  unfold scores in Hs. apply list_elem_of_fmap in Hs as (p & -> & _).
  apply ratio_bounds.
Qed.

Lemma find_best_score_in_unit_interval_witness :
  find_best m_password "what is the weather today"
  = Ok (JStr "", JStr "How do I reset my password?", 14 # 51)
  ∧ (0 <= 14 # 51 <= 1)%Q.
Proof.
  assert (H : find_best m_password "what is the weather today"
              = Ok (JStr "", JStr "How do I reset my password?", 14 # 51))
    by (vm_compute; reflexivity).
  split; [exact H|]. exact (find_best_score_in_unit_interval _ _ _ _ _ H).
Defined.


Section chain_b_facts.

Lemma positions_snoc c b x :
  positions c (b ++ [x])
  = positions c b ++ (if decide (x = c) then [length b] else []).
Proof.
  unfold positions, enumerate. rewrite imap_app, filter_app, fmap_app.
  f_equal. simpl. rewrite Nat.add_0_r.
  unfold filter. simpl. by destruct (decide (x = c)).
Qed.

Lemma elem_of_positions c b j : j ∈ positions c b ↔ b !! j = Some c.
Proof.
  unfold positions, enumerate. rewrite list_elem_of_fmap. split.
  - intros ([i y] & -> & H). apply list_elem_of_filter in H as [Hy H].
    simpl in Hy. subst y. apply elem_of_lookup_imap in H as (i' & y' & [= -> ->] & H).
    done.
  - intros H. exists (j, c). split; [done|].
    apply list_elem_of_filter. split; [done|].
    apply elem_of_lookup_imap. eauto.
Qed.

Lemma positions_lt c b : Forall (λ j, j < length b) (positions c b).
Proof.
  apply Forall_forall. intros j Hj. apply elem_of_positions in Hj.
  by eapply lookup_lt_Some.
Qed.

Lemma StronglySorted_snoc (l : list nat) n :
  StronglySorted lt l → Forall (λ x, x < n) l → StronglySorted lt (l ++ [n]).
Proof.
  induction 1 as [|x l Hl IH Hx]; intros Hn; simpl.
  - repeat constructor.
  - apply Forall_cons in Hn as [Hxn Hn]. constructor; [by apply IH|].
    apply Forall_app. split; [done|]. by constructor.
Qed.

Lemma positions_sorted c b : StronglySorted lt (positions c b).
Proof.
  induction b as [|x b IH] using rev_ind; [constructor|].
  rewrite positions_snoc. destruct (decide (x = c)).
  - apply StronglySorted_snoc; [done|apply positions_lt].
  - by rewrite app_nil_r.
Qed.

Lemma chain_all_snoc b x :
  chain_all (b ++ [x])
  = <[x := default [] (chain_all b !! x) ++ [length b]]> (chain_all b).
Proof.
  unfold chain_all, enumerate. rewrite imap_app, foldl_app. simpl.
  by rewrite Nat.add_0_r.
Qed.

Lemma chain_all_lookup b c :
  chain_all b !! c
  = match positions c b with
    | [] => None
    | js => Some js
    end.
Proof.
  induction b as [|x b IH] using rev_ind; [done|].
  rewrite chain_all_snoc, positions_snoc.
  destruct (decide (x = c)) as [->|Hne].
  - rewrite lookup_insert_eq, IH.
    by destruct (positions c b).
  - rewrite lookup_insert_ne by done. by rewrite app_nil_r.
Qed.

(** [b2j] maps an element that it keeps to all its positions in [b]. *)
Lemma chain_b_lookup b c js :
  difflib.chain_b b !! c = Some js → js = positions c b ∧ js ≠ [].
Proof.
  unfold difflib.chain_b. fold (chain_all b).
  intros H.
  assert (chain_all b !! c = Some js) as H'.
  { destruct (200 <=? length b); [|done].
    by apply map_lookup_filter_Some in H as [H _]. }
  rewrite chain_all_lookup in H'.
  by destruct (positions c b); [|injection H' as <-].
Qed.

End chain_b_facts.

Section nothing_in_common.
Import difflib.
Variables (a b : list ascii).
Hypothesis Hnone : ∀ i j c, a !! i = Some c → b !! j = Some c → False.

Lemma outer_loop_nothing blo bhi l : ∀ st,
  (foldl (outer_step a (chain_b b) blo bhi) st l).2 = st.2.
Proof.
  induction l as [|i l IH]; intros st; simpl; [done|].
  rewrite IH. unfold outer_step.
  destruct (a !! i) as [elt|] eqn:Hi; [|done].
  destruct (chain_b b !! elt) as [js|] eqn:Hjs; [|done].
  exfalso. apply chain_b_lookup in Hjs as [-> Hne].
  destruct (positions elt b) as [|j js] eqn:E; [done|].
  assert (j ∈ positions elt b) as Hj by (rewrite E; apply list_elem_of_here).
  apply elem_of_positions in Hj. by eapply Hnone.
Qed.

Lemma find_longest_match_nothing alo ahi blo bhi :
  find_longest_match a b (chain_b b) alo ahi blo bhi = (alo, blo, 0).
Proof.
  unfold find_longest_match. rewrite outer_loop_nothing. simpl.
  assert (extend_left a b alo blo alo blo 0 = (alo, blo, 0)) as ->.
  { destruct alo as [|i'], blo as [|j']; simpl; try done.
    by rewrite Nat.ltb_irrefl. }
  destruct (ahi - (alo + 0)) as [|n]; simpl; [done|].
  rewrite !Nat.add_0_r.
  destruct (a !! alo) as [c|] eqn:Ha.
  - rewrite bool_decide_eq_false_2, andb_false_r; [done|].
    intros [_ Heq]. symmetry in Heq. by eapply Hnone.
  - rewrite bool_decide_eq_false_2, andb_false_r; [done|].
    by intros [[c Hc] _].
Qed.

Lemma blocks_loop_nil b2j fuel acc : blocks_loop a b b2j fuel [] acc = Some acc.
Proof. by destruct fuel. Qed.

Lemma get_matching_blocks_nothing :
  get_matching_blocks a b = [(length a, length b, 0)].
Proof.
  unfold get_matching_blocks.
  replace (2 * length a + 1) with (S (2 * length a)) by lia.
  simpl blocks_loop. rewrite find_longest_match_nothing.
  cbn [Nat.eqb]. by rewrite blocks_loop_nil.
Qed.

End nothing_in_common.

Lemma chars_nil s : chars s = [] → s = "".
Proof. by destruct s. Qed.

(** Strings without a common character score 0.0, unless both are
    empty. *)
Lemma ratio_nothing_in_common q p :
  q ≠ "" → (∀ c, c ∈ chars q → c ∉ chars p) → difflib.ratio q p = 0%Q.
Proof.
  intros Hq Hnone. unfold difflib.ratio, difflib.ratio_list.
  rewrite get_matching_blocks_nothing.
  - simpl. unfold difflib._calculate_ratio. fold (chars q) (chars p).
    destruct (Nat.eqb_spec (length (chars q) + length (chars p)) 0) as [H0|_].
    + destruct (chars q) eqn:E; [by apply chars_nil in E|simpl in H0; lia].
    + apply Qred_zero.
  - intros i j c Hi Hj. apply (Hnone c); apply list_elem_of_lookup; eauto.
Qed.

(** X17: a query whose normal form is not empty and has no character in
    common with any cached question gets [("", "", 0.0)]. *)
Theorem find_best_nothing_in_common self query :
  normalize query ≠ "" →
  (∀ p c, p ∈ _questions_proc self →
          c ∈ chars (normalize query) → c ∉ chars p) →
  find_best self query = Ok (JStr "", JStr "", 0%Q).
Proof.
  intros Hq Hnone. apply find_best_no_positive.
  intros x Hx. unfold scores in Hx.
  apply list_elem_of_fmap in Hx as (p & -> & Hp).
  rewrite ratio_nothing_in_common; [done..|].
  intros c. by apply Hnone.
Qed.

Lemma find_best_nothing_in_common_witness :
  normalize "XYZ!" ≠ ""
  ∧ find_best m_two "XYZ!" = Ok (JStr "", JStr "", 0%Q).
Proof.
  assert (Hq : normalize "XYZ!" ≠ "") by (vm_compute; discriminate).
  split; [exact Hq|].
  apply (find_best_nothing_in_common m_two "XYZ!" Hq).
  intros p c Hp Hc Hcp. vm_compute in Hc.
  apply elem_of_cons in Hp as [->|Hp];
    [|apply list_elem_of_singleton in Hp as ->];
    vm_compute in Hcp;
    repeat (apply elem_of_cons in Hc as [->|Hc];
            [repeat (apply elem_of_cons in Hcp as [Hcp|Hcp]; [discriminate Hcp|]);
             by apply elem_of_nil in Hcp|]);
    by apply elem_of_nil in Hc.
Defined.


Section same_sequence.
Import difflib.
Variables (a : list ascii) (b2j : gmap ascii (list nat)).
Hypothesis Hb2j : ∀ c js, b2j !! c = Some js → js = positions c a.
Variables (alo ahi : nat).
Hypothesis Hahi : ahi ≤ length a.

Lemma diag_run_kept i c js :
  a !! i = Some c → b2j !! c = Some js →
  diag_run a b2j alo i = S (run_before a b2j alo i).
Proof.
  intros Hi Hc. destruct i as [|i']; simpl; rewrite Hi; simpl; by rewrite Hc.
Qed.

Lemma diag_run_dropped i c :
  a !! i = Some c → b2j !! c = None → diag_run a b2j alo i = 0.
Proof.
  intros Hi Hc. destruct i as [|i']; simpl; rewrite Hi; simpl; by rewrite Hc.
Qed.

Lemma run_before_succ i : alo ≤ i → run_before a b2j alo (S i) = diag_run a b2j alo i.
Proof. intros H. unfold run_before. by apply Nat.leb_le in H as ->. Qed.

Lemma run_before_alo : run_before a b2j alo alo = 0.
Proof.
  unfold run_before. destruct alo as [|n]; [done|].
  destruct (Nat.leb_spec (S n) n); [lia|done].
Qed.

Lemma j2lenget_prev i prev j :
  prev_ok a b2j alo i prev →
  j2lenget prev j ≤ run_before a b2j alo i
  ∧ j2lenget prev j ≤ run_before a b2j alo j.
Proof.
  intros [Hprev _]. destruct j as [|j']; simpl; [lia|].
  destruct (prev !! j') as [k|] eqn:E; simpl; [|lia].
  destruct (Hprev _ _ E) as (Hj & Hi & Hk).
  apply Nat.leb_le in Hj as ->. lia.
Qed.

Lemma inner_loop_same i prev c js0 :
  alo ≤ i → i < ahi → a !! i = Some c → b2j !! c = Some js0 →
  prev_ok a b2j alo i prev →
  ∀ js new best,
    StronglySorted lt js → (∀ j, j ∈ js → a !! j = Some c) →
    row_ok a b2j alo i new → best_ok a b2j alo i best →
    (i ∈ js ∨ (new !! i = Some (diag_run a b2j alo i)
               ∧ diag_run a b2j alo i ≤ best.2)) →
    row_ok a b2j alo i (inner_loop alo ahi i prev js (new, best)).1
    ∧ best_ok a b2j alo (S i) (inner_loop alo ahi i prev js (new, best)).2
    ∧ (inner_loop alo ahi i prev js (new, best)).1 !! i
      = Some (diag_run a b2j alo i).
Proof.
  intros Hlo Hhi Hi Hc Hprev.
  pose proof (diag_run_kept _ _ _ Hi Hc) as Hdi.
  assert (Hend : ∀ new best,
    row_ok a b2j alo i new → best_ok a b2j alo i best →
    new !! i = Some (diag_run a b2j alo i) → diag_run a b2j alo i ≤ best.2 →
    row_ok a b2j alo i new ∧ best_ok a b2j alo (S i) best
    ∧ new !! i = Some (diag_run a b2j alo i)).
  { intros new best Hrow (Hd & Hz & Hb) Hnew Hbs.
    split; [done|]. split; [|done]. split; [done|]. split; [done|].
    intros j Hj Hji. destruct (decide (j = i)) as [->|]; [done|]. apply Hb; lia. }
  induction js as [|j js IH]; intros new best Hsort Hmem Hrow Hbest Hflag.
  { simpl. destruct Hflag as [Hin|[Hnew Hbs]]; [by apply elem_of_nil in Hin|].
    by apply Hend. }
  apply StronglySorted_inv in Hsort as [Hsort Hj_lt].
  assert (Hmem' : ∀ x, x ∈ js → a !! x = Some c)
    by (intros x Hx; apply Hmem; by apply list_elem_of_further).
  assert (Hlater : ¬ (j < i) → j ≠ i →
            new !! i = Some (diag_run a b2j alo i)
            ∧ diag_run a b2j alo i ≤ best.2).
  { intros Hji Hne. destruct Hflag as [Hin|H]; [|done].
    apply elem_of_cons in Hin as [->|Hin]; [done|].
    rewrite Forall_forall in Hj_lt. specialize (Hj_lt _ Hin). lia. }
  simpl.
  destruct (Nat.ltb_spec j alo) as [Hjlo|Hjlo].
  { apply IH; try done. destruct Hflag as [Hin|H]; [|by right].
    apply elem_of_cons in Hin as [->|Hin]; [lia|by left]. }
  destruct (Nat.leb_spec ahi j) as [Hjhi|Hjhi].
  { destruct Hlater as [Hnew Hbs]; [lia..|]. by apply Hend. }
  destruct best as [[bi bj] bs].
  pose proof (j2lenget_prev i prev j Hprev) as [Hki Hkj].
  assert (Hdj : diag_run a b2j alo j = S (run_before a b2j alo j)).
  { eapply diag_run_kept; [|done]. apply Hmem, list_elem_of_here. }
  set (k := j2lenget prev j + 1) in *.
  assert (Hrow' : row_ok a b2j alo i (<[j := k]> new)).
  { intros j0 k0. rewrite lookup_insert. case_decide as Hd; [|by apply Hrow].
    intros [= <-]. subst j0. unfold k. lia. }
  destruct Hbest as (Hd & Hz & Hb). simpl in Hd, Hz, Hb.
  destruct (Nat.lt_trichotomy j i) as [Hlt|[->|Hgt]].
  - (* below the diagonal: the run was met in round [j] *)
    assert (k ≤ bs) by (specialize (Hb j Hjlo Hlt); unfold k; lia).
    destruct (Nat.ltb_spec bs k); [lia|].
    apply IH; try done.
    destruct Hflag as [Hin|[Hnew Hbs]].
    + apply elem_of_cons in Hin as [->|Hin]; [lia|by left].
    + right. by rewrite lookup_insert_ne by lia.
  - (* on the diagonal *)
    assert (Hk : k = diag_run a b2j alo i).
    { unfold k. destruct Hprev as [_ ->]. lia. }
    apply IH; try done.
    + destruct (Nat.ltb_spec bs k);
        (split; [simpl; lia|]; split; [simpl; try done; lia|]);
        intros j0 Hj0 Hj0i; specialize (Hb j0 Hj0 Hj0i); simpl; lia.
    + right. rewrite lookup_insert_eq. split; [by rewrite Hk|].
      destruct (Nat.ltb_spec bs k); simpl; lia.
  - (* above the diagonal: the diagonal of this round came first *)
    destruct Hlater as [Hnew Hbs]; [lia..|]. simpl in Hbs.
    assert (k ≤ bs) by (unfold k; lia).
    destruct (Nat.ltb_spec bs k); [lia|].
    apply IH; try done.
    right. by rewrite lookup_insert_ne by lia.
Qed.

Lemma outer_step_same i st :
  alo ≤ i → i < ahi →
  prev_ok a b2j alo i st.1 → best_ok a b2j alo i st.2 →
  prev_ok a b2j alo (S i) (outer_step a b2j alo ahi st i).1
  ∧ best_ok a b2j alo (S i) (outer_step a b2j alo ahi st i).2.
Proof.
  intros Hlo Hhi Hprev Hbest. unfold outer_step.
  destruct (a !! i) as [c|] eqn:Hi;
    [|apply lookup_ge_None in Hi; lia].
  destruct (b2j !! c) as [js|] eqn:Hc; cbn [default id inner_loop fst snd].
  - pose proof (Hb2j _ _ Hc) as ->.
    destruct (inner_loop_same i st.1 c _ Hlo Hhi Hi Hc Hprev
                (positions c a) ∅ st.2) as (Hrow & Hb & Hnew).
    + apply positions_sorted.
    + intros j. apply elem_of_positions.
    + intros j k. by rewrite lookup_empty.
    + done.
    + left. by apply elem_of_positions.
    + split; [|done]. split.
      * intros j k Hjk. rewrite run_before_succ by done. by apply Hrow.
      * cbn [j2lenget]. rewrite Hnew. cbn [default]. by rewrite run_before_succ.
  - split.
    + split; [intros j k; by rewrite lookup_empty|].
      cbn [j2lenget]. rewrite lookup_empty. cbn [default].
      rewrite run_before_succ by done. symmetry. by eapply diag_run_dropped.
    + destruct Hbest as (Hd & Hz & Hb).
      split; [done|]. split; [done|].
      intros j Hj Hji. destruct (decide (j = i)) as [->|].
      * erewrite diag_run_dropped by done. lia.
      * apply Hb; lia.
Qed.

Lemma outer_loop_same n : ∀ i st,
  alo ≤ i → i + n ≤ ahi →
  prev_ok a b2j alo i st.1 → best_ok a b2j alo i st.2 →
  best_ok a b2j alo (i + n) (foldl (outer_step a b2j alo ahi) st (seq i n)).2.
Proof.
  induction n as [|n IH]; intros i st Hlo Hhi Hprev Hbest; simpl.
  { by rewrite Nat.add_0_r. }
  destruct (outer_step_same i st) as [Hp Hb]; [lia..|done|done|].
  replace (i + S n) with (S i + n) by lia.
  apply IH; [lia|lia|done|done].
Qed.

Lemma extend_left_same besti : ∀ bestsize,
  ∃ i k, extend_left a a alo alo besti besti bestsize = (i, i, k)
         ∧ bestsize ≤ k.
Proof.
  induction besti as [|i' IH]; intros bestsize; simpl; [by eexists _, _|].
  destruct (_ && _).
  - destruct (IH (S bestsize)) as (i & k & -> & Hk). exists i, k. split; [done|lia].
  - by eexists _, _.
Qed.

Lemma extend_right_grows bhi besti bestj n : ∀ bestsize,
  bestsize ≤ extend_right a a bhi besti bestj bestsize n.
Proof.
  induction n as [|n IH]; intros bestsize; simpl; [done|].
  destruct (_ && _); [|done]. specialize (IH (S bestsize)). lia.
Qed.

(** On a sequence against itself, a window that is not empty yields a
    block of the diagonal that is not empty. *)
Lemma find_longest_match_same :
  alo < ahi →
  ∃ i k, find_longest_match a a b2j alo ahi alo ahi = (i, i, k) ∧ 1 ≤ k.
Proof.
  intros Hlt. unfold find_longest_match.
  pose proof (outer_loop_same (ahi - alo) alo (∅, (alo, alo, 0))) as H.
  destruct (foldl _ _ _).2 as [[bi bj] bs].
  destruct H as (Hd & Hz & _); simpl in *.
  { lia. } { lia. }
  { split; [intros j k; by rewrite lookup_empty|].
    rewrite run_before_alo. by destruct alo. }
  { split; [done|]. split; [done|]. intros j ? ?. lia. }
  subst bj.
  destruct (extend_left_same bi bs) as (i & k & Hleft & Hk).
  destruct (Nat.eq_dec bs 0) as [->|Hbs].
  - rewrite (Hz eq_refl) in *.
    assert (extend_left a a alo alo alo alo 0 = (alo, alo, 0)) as ->.
    { destruct alo as [|n]; simpl; [done|]. by rewrite Nat.ltb_irrefl. }
    exists alo. eexists. split; [done|].
    rewrite Nat.add_0_r.
    destruct (ahi - alo) as [|n] eqn:E; [lia|]. simpl.
    rewrite !Nat.add_0_r.
    destruct (Nat.ltb_spec alo ahi); [|lia].
    rewrite bool_decide_eq_true_2.
    + simpl. pose proof (extend_right_grows ahi alo alo n 1). lia.
    + split; [|done]. apply lookup_lt_is_Some. lia.
  - rewrite Hleft. exists i. eexists. split; [done|].
    pose proof (extend_right_grows ahi i i (ahi - (i + k)) k). lia.
Qed.

End same_sequence.

Section same_sequence_blocks.
Import difflib.
Variables (a : list ascii) (b2j : gmap ascii (list nat)).
Hypothesis Hb2j : ∀ c js, b2j !! c = Some js → js = positions c a.

(** The blocks found on a sequence against itself cover the ranges
    searched. *)
Lemma blocks_loop_same fuel : ∀ queue acc res,
  Forall (aligned (length a)) queue →
  blocks_loop a a b2j fuel queue acc = Some res →
  matched res = matched acc + queue_a queue.
Proof.
  induction fuel as [|fuel IH]; intros queue acc res Hok;
    destruct queue as [|[[[alo ahi] blo] bhi] queue]; simpl;
    [intros [= <-]; unfold queue_a; simpl; lia | done
    |intros [= <-]; unfold queue_a; simpl; lia | ].
  apply Forall_cons in Hok as [(Hab & Hab' & Hle & Hla) Hok]. simpl in *.
  subst blo bhi. rewrite queue_a_cons.
  pose proof (find_longest_match_in_window a a b2j alo ahi alo ahi Hle Hle) as Hin.
  destruct (Nat.eq_dec alo ahi) as [->|Hne].
  - destruct (find_longest_match _ _ _ _ _ _ _) as [[i j] k].
    unfold in_window in Hin; simpl in Hin.
    assert (k = 0) as -> by lia. simpl.
    intros Hr. apply IH in Hr; [lia|done].
  - destruct (find_longest_match_same a b2j Hb2j alo ahi Hla) as (i & k & Hflm & Hk);
      [lia|].
    rewrite Hflm in *. unfold in_window in Hin; simpl in Hin.
    destruct (Nat.eqb_spec k 0) as [->|_]; [lia|].
    destruct (Nat.ltb_spec alo i), (Nat.ltb_spec (i + k) ahi); simpl;
      intros Hr; apply IH in Hr;
      try (repeat (apply Forall_cons; split; [unfold aligned; simpl; lia|]); done);
      rewrite matched_app, ?queue_a_cons in Hr;
      change (matched [(i, i, k)]) with (k + 0) in Hr; lia.
Qed.

End same_sequence_blocks.

Lemma get_matching_blocks_same a :
  matched (difflib.get_matching_blocks a a) = length a.
Proof.
  rewrite get_matching_blocks_matched.
  destruct (get_matching_blocks_terminates a a) as [res Hres].
  rewrite Hres. simpl.
  apply blocks_loop_same in Hres.
  - rewrite Hres. unfold queue_a, matched. simpl. lia.
  - intros c js Hjs. by apply chain_b_lookup in Hjs as [-> _].
  - apply Forall_cons; split; [unfold aligned; simpl; lia | done].
Qed.

Lemma Qred_one (n : Z) (p : positive) : n = Z.pos p → Qred (n # p) = 1%Q.
Proof.
  intros ->. apply (Qred_complete (Z.pos p # p) 1).
  unfold Qeq. simpl. lia.
Qed.

(** A string scores exactly 1.0 against itself. *)
Lemma ratio_same s : difflib.ratio s s = 1%Q.
Proof.
  unfold difflib.ratio. rewrite ratio_list_matched, get_matching_blocks_same.
  unfold difflib._calculate_ratio.
  set (la := length (list_ascii_of_string s)).
  destruct (Nat.eqb_spec (la + la) 0) as [_|Hn]; [done|].
  apply Qred_one. replace (2 * la) with (la + la) by lia.
  destruct (la + la) as [|t]; [done|].
  by rewrite <- Pos.of_nat_succ, Zpos_P_of_succ_nat, Nat2Z.inj_succ.
Qed.

(** A score equal to 1.0 is the rational [1] itself. *)
Lemma ratio_one a b : (difflib.ratio a b == 1)%Q → difflib.ratio a b = 1%Q.
Proof.
  unfold difflib.ratio, difflib.ratio_list, difflib._calculate_ratio.
  destruct (_ =? 0); [done|].
  intros H. rewrite Qred_correct in H. by apply Qred_complete in H.
Qed.

(* ================================================================== *)
(** * The empty normal form                                            *)
(* ================================================================== *)

(** Against the empty string, the empty string scores 1.0 and every
    other string 0.0. *)
Lemma ratio_empty p :
  difflib.ratio "" p = if decide (p = "") then 1%Q else 0%Q.
Proof.
  destruct (decide (p = "")) as [->|Hp]; [vm_compute; reflexivity|].
  unfold difflib.ratio. rewrite ratio_list_matched.
  change (list_ascii_of_string "") with (@nil ascii).
  destruct (get_matching_blocks_bound [] (list_ascii_of_string p)) as [Ha _].
  change (length (@nil ascii)) with 0 in *.
  assert (matched (difflib.get_matching_blocks [] (list_ascii_of_string p)) = 0)
    as -> by lia.
  unfold difflib._calculate_ratio.
  destruct (Nat.eqb_spec (0 + length (list_ascii_of_string p)) 0) as [H0|_].
  - destruct p; [done | simpl in H0; lia].
  - apply Qred_zero.
Qed.

(** C5: when the normalised query and a cached normalised question are
    both the empty string, the score the scan of [find_best] computes
    for that pair is exactly 1.0: the round of the scan at that entry
    compares the best score so far with 1.0, the entry's score in the
    list of scores is 1.0, and the scan ends on the first entry whose
    cached question is empty, with score 1.0.  For a loaded matcher
    [find_best] then returns 1.0 as the score, with the question of that
    entry, and with its answer when the cutoff is at most 1.0. *)
Theorem find_best_empty_pair_scores_one m query i :
  normalize query = "" → _questions_proc m !! i = Some "" →
  (∀ best_idx best_score,
     scan_step (normalize query) (best_idx, best_score) (i, "")
     = if Qlt_bool best_score 1 then (Z.of_nat i, 1%Q)
       else (best_idx, best_score))
  ∧ scores m query !! i = Some 1%Q
  ∧ ∃ i0, i0 ≤ i
      ∧ _questions_proc m !! i0 = Some ""
      ∧ (∀ j, j < i0 → _questions_proc m !! j ≠ Some "")
      ∧ scan (normalize query) (_questions_proc m) = (Z.of_nat i0, 1%Q)
      ∧ (loaded m →
         ∃ o, getitem_int (kb m) (Z.of_nat i0) = Ok (JObj o)
           ∧ ((1 < cutoff m)%Q →
                find_best m query
                = Ok (JStr "", default (JStr "") (o !! "question"), 1%Q))
           ∧ (∀ answer, (cutoff m <= 1)%Q → o !! "answer" = Some answer →
                find_best m query
                = Ok (answer, default (JStr "") (o !! "question"), 1%Q))).
Proof.
  intros Hq Hi.
  assert (Hsi : scores m query !! i = Some 1%Q).
  { unfold scores. by rewrite list_lookup_fmap, Hi, Hq. }
  split; [|split; [exact Hsi|]].
  { intros best_idx best_score. unfold scan_step. rewrite Hq.
    by change (difflib.ratio "" "") with 1%Q. }
  destruct (scan_spec (normalize query) (_questions_proc m))
    as [[_ Hle] | (i0 & s0 & Hscan & Hpos0 & Hfm)].
  { exfalso. assert (1 <= 0)%Q as H; [|by apply H].
    apply Hle, list_elem_of_lookup. exists i. exact Hsi. }
  fold (scores m query) in Hfm.
  pose proof Hfm as (Hi0 & Hmax0 & Hlt0).
  assert (Hp0 : _questions_proc m !! i0 = Some "" ∧ s0 = 1%Q).
  { unfold scores in Hi0. rewrite list_lookup_fmap, Hq in Hi0.
    destruct (_questions_proc m !! i0) as [p|]; [|done].
    injection Hi0 as <-. rewrite ratio_empty in *.
    destruct (decide (p = "")) as [->|_]; [done|].
    destruct (Qlt_irrefl _ Hpos0). }
  destruct Hp0 as [Hp0 ->].
  exists i0. split; [|split; [exact Hp0|split; [|split; [exact Hscan|]]]].
  - destruct (Nat.le_gt_cases i0 i) as [H|H]; [done|].
    specialize (Hlt0 _ _ H Hsi). destruct (Qlt_irrefl _ Hlt0).
  - intros j Hj Hpj.
    assert (Hsj : scores m query !! j = Some 1%Q).
    { unfold scores. by rewrite list_lookup_fmap, Hpj, Hq. }
    specialize (Hlt0 _ _ Hj Hsj). destruct (Qlt_irrefl _ Hlt0).
  - intros Hm.
    destruct (find_best_first_max m query i0 1%Q (loaded_parallel _ Hm) Hfm Hpos0)
      as (o & Ho & _ & ->).
    exists o. split; [done|]. split.
    + intros H. apply Qle_bool_false in H. by rewrite H.
    + intros answer H Ha. apply Qle_bool_iff in H. by rewrite H, Ha.
Qed.

Lemma find_best_empty_pair_scores_one_witness :
  normalize "?!" = ""
  ∧ _questions_proc m_blank_question !! 1 = Some ""
  ∧ __init__ (Ok kb_blank_question) (11 # 20) = Ok m_blank_question
  ∧ scan (normalize "?!") (_questions_proc m_blank_question) = (1%Z, 1%Q)
  ∧ find_best m_blank_question "?!"
    = Ok (JStr "Please type a question.", JStr " ... ", 1%Q).
Proof.
  assert (Hq : normalize "?!" = "") by (vm_compute; reflexivity).
  assert (Hi : _questions_proc m_blank_question !! 1 = Some "")
    by (vm_compute; reflexivity).
  assert (Hm : loaded m_blank_question).
  { exists (Ok kb_blank_question), (blank (11 # 20)). vm_compute. reflexivity. }
  split; [exact Hq|]. split; [exact Hi|].
  split; [vm_compute; reflexivity|].
  destruct (find_best_empty_pair_scores_one m_blank_question "?!" 1 Hq Hi)
    as (_ & _ & i0 & Hle & Hp0 & _ & Hscan & Hfb).
  assert (i0 = 1) as ->.
  { destruct i0 as [|[|]]; [discriminate Hp0 | done | lia]. }
  split; [exact Hscan|].
  destruct (Hfb Hm) as (o & Ho & _ & Hans).
  vm_compute in Ho. injection Ho as <-.
  apply Hans; [vm_compute; discriminate | vm_compute; reflexivity].
Defined.

(* ================================================================== *)
(** * Further properties: exact matches                                *)
(* ================================================================== *)

(** X18: a query whose normal form is that of a cached question scores
    exactly 1.0, and [find_best] answers from the first entry that
    scores 1.0: its question, with its answer when the cutoff is at
    most 1.0 and the entry has one. *)
Theorem find_best_exact_match m query i :
  loaded m → _questions_proc m !! i = Some (normalize query) →
  ∃ i0 o, i0 ≤ i ∧ first_max (scores m query) i0 1%Q
    ∧ getitem_int (kb m) (Z.of_nat i0) = Ok (JObj o)
    ∧ ((1 < cutoff m)%Q →
         find_best m query
         = Ok (JStr "", default (JStr "") (o !! "question"), 1%Q))
    ∧ (∀ answer, (cutoff m <= 1)%Q → o !! "answer" = Some answer →
         find_best m query
         = Ok (answer, default (JStr "") (o !! "question"), 1%Q)).
Proof.
  intros Hm Hi.
  assert (Hsi : scores m query !! i = Some 1%Q).
  { unfold scores. by rewrite list_lookup_fmap, Hi, <- (ratio_same (normalize query)). }
  destruct (scan_spec (normalize query) (_questions_proc m))
    as [[_ Hle] | (i0 & s0 & _ & Hpos0 & Hfm)].
  { exfalso. assert (1 <= 0)%Q as H; [|by apply H].
    apply Hle, list_elem_of_lookup. exists i. exact Hsi. }
  fold (scores m query) in Hfm.
  pose proof Hfm as (Hi0 & Hmax0 & Hlt0).
  assert (Hs : s0 = 1%Q).
  { pose proof Hi0 as Hr. unfold scores in Hr. rewrite list_lookup_fmap in Hr.
    destruct (_questions_proc m !! i0) as [p|]; [|done].
    injection Hr as <-. apply ratio_one.
    apply Qle_antisym; [apply ratio_bounds|]. by eapply Hmax0. }
  subst s0.
  assert (Hle : i0 ≤ i).
  { destruct (Nat.le_gt_cases i0 i) as [H|H]; [done|].
    specialize (Hlt0 _ _ H Hsi). destruct (Qlt_irrefl _ Hlt0). }
  destruct (find_best_first_max m query i0 1%Q (loaded_parallel _ Hm) Hfm Hpos0)
    as (o & Ho & _ & ->).
  exists i0, o. repeat split; [done..| |].
  - intros H. apply Qle_bool_false in H. by rewrite H.
  - intros answer H Ha. apply Qle_bool_iff in H. by rewrite H, Ha.
Qed.

Lemma find_best_exact_match_witness :
  loaded m_password
  ∧ _questions_proc m_password !! 0 = Some (normalize "How do I reset my password?")
  ∧ find_best m_password "How do I reset my password?"
    = Ok (JStr "Click forgot password.", JStr "How do I reset my password?", 1%Q).
Proof.
  assert (Hi : _questions_proc m_password !! 0
               = Some (normalize "How do I reset my password?"))
    by (vm_compute; reflexivity).
  split; [exact m_password_loaded|]. split; [exact Hi|].
  destruct (find_best_exact_match m_password "How do I reset my password?" 0
              m_password_loaded Hi) as (i0 & o & Hi0 & _ & Ho & _ & Hans).
  assert (i0 = 0) as -> by lia.
  vm_compute in Ho. injection Ho as <-.
  apply Hans; [vm_compute; discriminate | vm_compute; reflexivity].
Defined.


(* ================================================================== *)
(** * Further properties: the script                                   *)
(* ================================================================== *)

Section script_facts.
Variables (str_other : json → string) (format_3f : Q → string).

Lemma transcript_snoc evs ev :
  transcript (evs ++ [ev]) = transcript evs ++ [Prompted prompt; ev].
Proof. unfold transcript. by rewrite flat_map_app. Qed.

(** The rounds that answer: the loop goes on with the rest of the input
    after writing a prompt and the answer for each line. *)
Lemma main_loop_answers m before : ∀ evs rest stdout,
  Forall (λ line, ¬ quit_word line) before →
  Forall2 (answered str_other format_3f m) before evs →
  main_loop str_other format_3f m (before ++ rest) stdout
  = main_loop str_other format_3f m rest (stdout ++ transcript evs).
Proof.
  induction before as [|line before IH]; intros evs rest stdout Hq Hans.
  { apply Forall2_nil_inv_l in Hans as ->. simpl. by rewrite app_nil_r. }
  apply Forall2_cons_inv_l in Hans as (ev & evs' & Hev & Hans & ->).
  apply Forall_cons in Hq as [Hline Hq].
  destruct Hev as (ans & matched_q & score & Hget & ->).
  simpl. rewrite bool_decide_eq_false_2 by exact Hline.
  rewrite Hget, (IH evs' rest _ Hq Hans).
  by rewrite <- !app_assoc.
Qed.

End script_facts.

(** X19: the loop answers the lines before the first quit word, one
    prompt and one print for each in order, writes one more prompt and
    ends by [break]; the quit word is compared stripped and lower-cased,
    it is not looked up, and the input after it is left unread. *)
Theorem main_loop_quits str_other format_3f m before line after evs :
  Forall (λ x, ¬ quit_word x) before →
  Forall2 (answered str_other format_3f m) before evs →
  quit_word line →
  main_loop str_other format_3f m (before ++ line :: after) []
  = (after, transcript evs ++ [Prompted prompt], Break).
Proof.
  intros Hq Hans Hline.
  rewrite (main_loop_answers _ _ _ _ _ _ _ Hq Hans). simpl.
  by rewrite bool_decide_eq_true_2 by exact Hline.
Qed.

(** X20: when the input ends without a quit word the loop answers every
    line, prompts once more and ends with the [EOFError] of [input]. *)
Theorem main_loop_end_of_input str_other format_3f m lines evs :
  Forall (λ x, ¬ quit_word x) lines →
  Forall2 (answered str_other format_3f m) lines evs →
  main_loop str_other format_3f m lines []
  = ([], transcript evs ++ [Prompted prompt], EOFError).
Proof.
  intros Hq Hans.
  rewrite <- (app_nil_r lines).
  by rewrite (main_loop_answers _ _ _ _ _ _ _ Hq Hans).
Qed.

(** X21: an exception of the matcher ends the loop: for the first line
    on which [get_answer_with_score] raises, the prompt is written,
    nothing is printed, and the exception leaves the script with the
    input after that line unread. *)
Theorem main_loop_uncaught str_other format_3f m before line after evs e :
  Forall (λ x, ¬ quit_word x) before →
  Forall2 (answered str_other format_3f m) before evs →
  ¬ quit_word line →
  get_answer_with_score m (str_strip line) = Raise e →
  main_loop str_other format_3f m (before ++ line :: after) []
  = (after, transcript evs ++ [Prompted prompt], Uncaught e).
Proof.
  intros Hq Hans Hline Hget.
  rewrite (main_loop_answers _ _ _ _ _ _ _ Hq Hans). simpl.
  rewrite bool_decide_eq_false_2 by exact Hline. by rewrite Hget.
Qed.

Lemma script_example_answered :
  answered (λ _, "") (λ _, "0.906") m_password "how can i reset my password"
    (Printed (report (λ _, "") (λ _, "0.906") (JStr "Click forgot password.")
              (JStr "How do I reset my password?") (48 # 53))).
Proof.
  exists (JStr "Click forgot password."), (JStr "How do I reset my password?"),
    (48 # 53).
  split; [vm_compute; reflexivity | reflexivity].
Qed.

Lemma script_example_not_quit : ¬ quit_word "how can i reset my password".
Proof.
  unfold quit_word. intros H. vm_compute in H.
  repeat (apply elem_of_cons in H as [H|H]; [discriminate H|]).
  by apply elem_of_nil in H.
Qed.

Lemma main_loop_quits_witness :
  quit_word "  QUIT "
  ∧ main_loop (λ _, "") (λ _, "0.906") m_password
      ["how can i reset my password"; "  QUIT "; "never read"] []
    = (["never read"],
       [Prompted prompt;
        Printed (report (λ _, "") (λ _, "0.906") (JStr "Click forgot password.")
                 (JStr "How do I reset my password?") (48 # 53));
        Prompted prompt],
       Break).
Proof.
  assert (Hq : quit_word "  QUIT ").
  { unfold quit_word. vm_compute.
    apply list_elem_of_further, list_elem_of_here. }
  split; [exact Hq|].
  apply (main_loop_quits (λ _, "") (λ _, "0.906") m_password
           ["how can i reset my password"] "  QUIT " ["never read"] [_]).
  - constructor; [exact script_example_not_quit | constructor].
  - constructor; [exact script_example_answered | constructor].
  - exact Hq.
Defined.

Lemma main_loop_end_of_input_witness :
  main_loop (λ _, "") (λ _, "0.906") m_password
    ["how can i reset my password"] []
  = ([],
     [Prompted prompt;
      Printed (report (λ _, "") (λ _, "0.906") (JStr "Click forgot password.")
               (JStr "How do I reset my password?") (48 # 53));
      Prompted prompt],
     EOFError).
Proof.
  apply (main_loop_end_of_input (λ _, "") (λ _, "0.906") m_password
           ["how can i reset my password"] [_]).
  - constructor; [exact script_example_not_quit | constructor].
  - constructor; [exact script_example_answered | constructor].
Defined.

Lemma main_loop_uncaught_witness :
  ¬ quit_word "hi"
  ∧ get_answer_with_score m_no_answer (str_strip "hi") = Raise KeyError
  ∧ main_loop (λ _, "") (λ _, "0.906") m_no_answer ["hi"; "never read"] []
    = (["never read"], [Prompted prompt], Uncaught KeyError).
Proof.
  assert (Hq : ¬ quit_word "hi").
  { unfold quit_word. intros H. vm_compute in H.
    repeat (apply elem_of_cons in H as [H|H]; [discriminate H|]).
    by apply elem_of_nil in H. }
  assert (Hget : get_answer_with_score m_no_answer (str_strip "hi") = Raise KeyError)
    by (vm_compute; reflexivity).
  split; [exact Hq|]. split; [exact Hget|].
  apply (main_loop_uncaught (λ _, "") (λ _, "0.906") m_no_answer
           [] "hi" ["never read"] [] KeyError); [constructor..|exact Hq|exact Hget].
Defined.
